(** * Pancho-Sidebar: routing, frame URL composition and persisted flags

    A shallow embedding of the dashboard shell's logic:
    - [findNavItemByHref], [findDefaultHref] and the effect of [PageContent]
      (src/App.tsx),
    - the open-submenu set, its toggle and the navigation rendering of
      [Sidebar] (Sidebar.tsx, found in src/components/Icon.tsx),
    - the settings loader of [SettingsProvider]
      (SettingsContext.tsx, found in src/unnamed/part_000),
    - the two effects that write to [localStorage].

    JavaScript strings are modelled by [string]; a character of the model
    stands for one code unit, which is what [startsWith], indexing, [length],
    [substring] and [endsWith] operate on. *)

From stdpp Require Import base option list strings gmap fin_maps.
From Stdlib Require Import Ascii Bool Arith Lia.

(* ================================================================== *)
(** * JavaScript string primitives used by the sources *)
(* ================================================================== *)

Module JsString.

(** [s.startsWith(p)] *)
Definition startsWith (s p : string) : bool := String.prefix p s.

(** [s[i]]: [None] stands for [undefined]. *)
Definition charAt (s : string) (i : nat) : option ascii := String.get i s.

(** [s.substring(n)]: the suffix of [s] from index [n]. *)
Definition substringFrom (s : string) (n : nat) : string :=
  String.substring n (String.length s - n) s.

(** [s.endsWith(t)] *)
Definition endsWith (s t : string) : bool :=
  let ls := String.length s in
  let lt := String.length t in
  if lt <=? ls then String.eqb (String.substring (ls - lt) lt s) t else false.

(** JavaScript truthiness of a string: only the empty string is falsy. *)
Definition truthy (s : string) : bool := negb (String.eqb s "").

(** Truthiness of [string | undefined] / [string | null]. *)
Definition truthyOpt (o : option string) : bool :=
  match o with
  | Some s => truthy s
  | None => false
  end.

End JsString.

Import JsString.

(* ================================================================== *)
(** * Configuration document *)
(* ================================================================== *)

(** Modelled from the spec: src/types.ts is not among the sources.  The
    records of this section follow the README's description of
    [settings.json] and the fields the sources read.  An item is a [link]
    with [href], [label], [icon] and [iframeUrl]; a [header] with a label; or
    a [submenu] with [label], [icon], [path] and [children] links.
    [iframeUrl] is optional: App.tsx reads it through [activeItem?.iframeUrl]
    and tests [!iframeUrl]; so are [theme], [security] and
    [allowedIframeDomains], which the sources read behind [?.]. *)
Record NavLink := mkNavLink {
  href : string;
  label : string;
  icon : string;
  iframeUrl : option string
}.

Record NavHeader := mkNavHeader {
  header_label : string
}.

Record NavSubmenu := mkNavSubmenu {
  submenu_label : string;
  submenu_icon : string;
  path : string;
  children : list NavLink
}.

(** The [type] tag of an item is the constructor. *)
Inductive NavItem :=
| link (l : NavLink)
| header (h : NavHeader)
| submenu (s : NavSubmenu).

Record Profile := mkProfile {
  profile_name : string;
  profile_role : string;
  profile_icon : string;
  profile_href : string
}.

Record SidebarSettings := mkSidebarSettings {
  defaultState : string;
  logoUrl : string;
  profile : Profile;
  navItems : list NavItem
}.

Record SecuritySettings := mkSecuritySettings {
  allowedIframeDomains : option (list string)
}.

(** [theme] is a JSON object read through [Object.entries]: an association
    list in the document's key order. *)
Record AppSettings := mkAppSettings {
  theme : option (list (string * string));
  security : option SecuritySettings;
  sidebar : SidebarSettings
}.

(* ================================================================== *)
(** * Route resolution (src/App.tsx) *)
(* ================================================================== *)

Record Match := mkMatch {
  navLink : NavLink;
  iframeHash : string
}.

(** The test of [checkItem]: [cur] starts with the item's href and the
    character after the prefix is [undefined] or ['#']. *)
Definition hrefAccepts (cur : string) (item : NavLink) : bool :=
  if startsWith cur (href item) then
    match charAt cur (String.length (href item)) with
    | None => true
    | Some c => Ascii.eqb c "#"%char
    end
  else false.

(** [checkItem] closes over the mutable [bestMatch]; here the variable is
    threaded through. *)
Definition checkItem (cur : string) (bestMatch : option Match) (item : NavLink)
  : option Match :=
  if startsWith cur (href item) then
    let nextChar := charAt cur (String.length (href item)) in
    if match nextChar with
       | None => true
       | Some c => Ascii.eqb c "#"%char
       end
    then
      if match bestMatch with
         | None => true
         | Some b => String.length (href (navLink b)) <? String.length (href item)
         end
      then
        let iframeHash := substringFrom cur (String.length (href item)) in
        Some {| navLink := item; iframeHash := iframeHash |}
      else bestMatch
    else bestMatch
  else bestMatch.

(** One iteration of the [for (const item of navItems)] loop. *)
Definition visitItem (cur : string) (bestMatch : option Match) (item : NavItem)
  : option Match :=
  match item with
  | link l => checkItem cur bestMatch l
  | submenu s => fold_left (checkItem cur) (children s) bestMatch
  | header _ => bestMatch
  end.

Definition findNavItemByHref (navItems : list NavItem) (cur : string)
  : option Match :=
  fold_left (visitItem cur) navItems None.

(** [findDefaultHref]: the loop returns at the first item that is a link or
    a submenu with at least one child. *)
Fixpoint findDefaultHref (navItems : list NavItem) : string :=
  match navItems with
  | [] => "#/"
  | link l :: _ => href l
  | submenu s :: rest =>
      match children s with
      | c :: _ => href c
      | [] => findDefaultHref rest
      end
  | header _ :: rest => findDefaultHref rest
  end.

(** The argument [PageContent] passes to [findNavItemByHref]. *)
Definition routeHref (navItems : list NavItem) (hash : string) : string :=
  if String.eqb hash "#/" then findDefaultHref navItems else hash.

Definition resolveRoute (navItems : list NavItem) (hash : string) : option Match :=
  findNavItemByHref navItems (routeHref navItems hash).

(** The links the loop visits, in visiting order. *)
Definition itemLinks (item : NavItem) : list NavLink :=
  match item with
  | link l => [l]
  | submenu s => children s
  | header _ => []
  end.

Definition navLinks (navItems : list NavItem) : list NavLink :=
  concat (map itemLinks navItems).

(** What it means for a link to match the current hash. *)
Definition hrefMatches (cur : string) (item : NavLink) : Prop :=
  exists rest, cur = href item +:+ rest /\
               (rest = "" \/ exists r, rest = String "#"%char r).

(** Length of a link's href, the measure [checkItem] compares. *)
Definition hrefLen (l : NavLink) : nat := String.length (href l).

(** The accumulator after a run of [checkItem] over [ls], started from [b]:
    either it is still the incoming best match, which no accepted link of
    [ls] beats, or it is the first accepted link of [ls] of maximal href
    length, and that link beats the incoming best match. *)
Definition bestOf (cur : string) (b : option Match) (ls : list NavLink) (m : Match)
  : Prop :=
  (b = Some m /\ forall l, l ∈ ls -> hrefAccepts cur l = true ->
                           hrefLen l <= hrefLen (navLink m))
  \/ (exists pre post,
        ls = pre ++ navLink m :: post /\
        hrefAccepts cur (navLink m) = true /\
        iframeHash m = substringFrom cur (hrefLen (navLink m)) /\
        (forall l, l ∈ pre -> hrefAccepts cur l = true ->
                   hrefLen l < hrefLen (navLink m)) /\
        (forall l, l ∈ post -> hrefAccepts cur l = true ->
                   hrefLen l <= hrefLen (navLink m)) /\
        (forall m0, b = Some m0 -> hrefLen (navLink m0) < hrefLen (navLink m))).

(* ================================================================== *)
(** * The browser interface *)
(* ================================================================== *)

(** A parsed URL, as the [URL] object exposes it.  The query is represented
    by the list of pairs its [searchParams] object holds; [fragment] is
    [None] for a URL without fragment. *)
Record URL := mkURL {
  protocol : string;
  hostname : string;
  port : string;
  pathname : string;
  searchParams : list (string * string);
  fragment : option string
}.

(** The built-ins the sources call.  They are the browser's, not the
    repository's, and are left as parameters of the development. *)
Class Browser := {
  (** [new URL(url, base)]; [None] when the constructor throws. *)
  URL_parse : string -> string -> option URL;
  (** [url.toString()] *)
  URL_toString : URL -> string;
  (** the pairs of [new URLSearchParams(search)], in order *)
  URLSearchParams_parse : string -> list (string * string);
  (** the encoding the fragment state of the URL parser applies *)
  fragmentEncode : string -> string;
  (** the value [location.hash] reads after [location.hash = v] *)
  location_setHash : string -> string;
  (** [JSON.stringify] of an array of strings *)
  JSON_stringify : list string -> string;
  (** what [style.setProperty(name, value)] stores for a non-empty [value]:
      the parsed value, or [None] when [value] does not parse for that
      property, in which case the call changes nothing *)
  CSS_parseValue : string -> string -> option string
}.

(** [url.searchParams.append(key, value)] *)
Definition searchParams_append (u : URL) (key value : string) : URL :=
  {| protocol := protocol u; hostname := hostname u; port := port u;
     pathname := pathname u;
     searchParams := searchParams u ++ [(key, value)];
     fragment := fragment u |}.

(** One leading ['#'] removed, if any. *)
Definition stripHash (v : string) : string :=
  match v with
  | String "#" r => r
  | _ => v
  end.

(** [url.hash = v]: the empty string clears the fragment, otherwise the
    value without one leading ['#'] is run through the fragment state. *)
Definition URL_set_hash `{Browser} (u : URL) (v : string) : URL :=
  {| protocol := protocol u; hostname := hostname u; port := port u;
     pathname := pathname u;
     searchParams := searchParams u;
     fragment := if String.eqb v "" then None
                 else Some (fragmentEncode (stripHash v)) |}.

(** [window.location] as the page sees it; [hash] is the value the
    [useLocation] hook hands to the components. *)
Record Location := mkLocation {
  origin : string;
  search : string;
  hash : string
}.

(* ================================================================== *)
(** * [PageContent] (src/App.tsx) *)
(* ================================================================== *)

Record PageState := mkPageState {
  finalIframeUrl : option string;
  securityError : option string;
  isIframeLoading : bool
}.

Definition setFinalIframeUrl (v : option string) (st : PageState) : PageState :=
  {| finalIframeUrl := v; securityError := securityError st;
     isIframeLoading := isIframeLoading st |}.

Definition setSecurityError (v : option string) (st : PageState) : PageState :=
  {| finalIframeUrl := finalIframeUrl st; securityError := v;
     isIframeLoading := isIframeLoading st |}.

Definition setIsIframeLoading (v : bool) (st : PageState) : PageState :=
  {| finalIframeUrl := finalIframeUrl st; securityError := securityError st;
     isIframeLoading := v |}.

Definition msgInvalidUrl : string := "The configured iframe URL is invalid.".

Definition msgDomainBlocked : string :=
  "For security reasons, only content from configured domains can be displayed.".

(** [iframeUrl.startsWith('/') || iframeUrl.startsWith('./')] *)
Definition isRelative (iframeUrl : string) : bool :=
  startsWith iframeUrl "/" || startsWith iframeUrl "./".

(** [settings?.security?.allowedIframeDomains ?? []] *)
Definition allowedDomains (settings : AppSettings) : list string :=
  match security settings with
  | Some sec => default [] (allowedIframeDomains sec)
  | None => []
  end.

(** [allowedDomains.some(domain => hostname === domain ||
    hostname.endsWith(`.${domain}`))] *)
Definition isAllowed (allowed : list string) (host : string) : bool :=
  existsb (fun domain => String.eqb host domain || endsWith host ("." +:+ domain))
          allowed.

(** [mainPageParams.forEach((value, key) => finalUrl.searchParams.append(key, value))] *)
Definition appendParams (params : list (string * string)) (u : URL) : URL :=
  fold_left (fun acc kv => searchParams_append acc kv.1 kv.2) params u.

(** The tail of the effect, once the URL is parsed and not blocked. *)
Definition composeUrl `{Browser} (loc : Location) (iframeHash : string) (u : URL) : URL :=
  let mainPageParams := URLSearchParams_parse (search loc) in
  let u1 := appendParams mainPageParams u in
  if truthy iframeHash then URL_set_hash u1 iframeHash else u1.

(** The body of the [useEffect] of [PageContent], as a transformer of the
    component's state. *)
Definition pageEffect `{Browser} (settings : AppSettings) (loc : Location)
    (iframeUrl : option string) (iframeHash : string) (st : PageState) : PageState :=
  match iframeUrl with
  | Some url =>
      if negb (truthy url) then
        setIsIframeLoading false (setSecurityError None (setFinalIframeUrl None st))
      else
        let st := setIsIframeLoading true st in
        let isRelative := isRelative url in
        match URL_parse url (origin loc) with
        | None =>
            setIsIframeLoading false
              (setFinalIframeUrl None (setSecurityError (Some msgInvalidUrl) st))
        | Some finalUrl =>
            let embed :=
              setSecurityError None
                (setFinalIframeUrl
                   (Some (URL_toString (composeUrl loc iframeHash finalUrl))) st) in
            if negb isRelative then
              let allowedDomains := allowedDomains settings in
              let isAllowed := isAllowed allowedDomains (hostname finalUrl) in
              if negb isAllowed then
                setIsIframeLoading false
                  (setFinalIframeUrl None (setSecurityError (Some msgDomainBlocked) st))
              else embed
            else embed
        end
  | None =>
      setIsIframeLoading false (setSecurityError None (setFinalIframeUrl None st))
  end.

(** What the component returns. *)
Inductive View :=
| ContentBlocked (message : string)
| Frame (src : string) (title : string) (loading : bool)
| Welcome (route : string).

(** [activeItem?.label || 'Content'] *)
Definition frameTitle (activeItem : option NavLink) : string :=
  match activeItem with
  | Some l => if truthy (label l) then label l else "Content"
  | None => "Content"
  end.

Definition render (activeItem : option NavLink) (hash : string) (st : PageState) : View :=
  let otherwise :=
    match finalIframeUrl st with
    | Some u => if truthy u then Frame u (frameTitle activeItem) (isIframeLoading st)
                else Welcome hash
    | None => Welcome hash
    end in
  match securityError st with
  | Some e => if truthy e then ContentBlocked e else otherwise
  | None => otherwise
  end.

(** The values [PageContent] derives from the route before its effect. *)
Definition activeItem (settings : AppSettings) (loc : Location) : option NavLink :=
  navLink <$> resolveRoute (navItems (sidebar settings)) (hash loc).

Definition routeIframeHash (settings : AppSettings) (loc : Location) : string :=
  default "" (iframeHash <$> resolveRoute (navItems (sidebar settings)) (hash loc)).

Definition routeIframeUrl (settings : AppSettings) (loc : Location) : option string :=
  activeItem settings loc ≫= iframeUrl.

(** A pass of [PageContent] in which its effect runs (the first pass, or
    one in which a dependency of the effect changed): the state after the
    effect and the view rendered from it.  [pagePass] below is the pass with
    the dependency array taken into account. *)
Definition pageContent `{Browser} (settings : AppSettings) (loc : Location)
    (st : PageState) : PageState * View :=
  let st' := pageEffect settings loc (routeIframeUrl settings loc)
                        (routeIframeHash settings loc) st in
  (st', render (activeItem settings loc) (hash loc) st').

(** [onLoad] of the iframe. *)
Definition iframeLoaded (st : PageState) : PageState := setIsIframeLoading false st.

(* ================================================================== *)
(** * [SettingsProvider] (SettingsContext.tsx) *)
(* ================================================================== *)

Record SettingsContextType := mkSettingsContext {
  settings : option AppSettings;
  loading : bool
}.

(** What [fetch('/settings.json')] and [response.json()] deliver. *)
Inductive FetchResult :=
| fetchRejected
| fetchResponse (ok : bool) (status : nat) (json : option AppSettings).

(** [fetchSettings].  [win] is the page's location, in scope of the effect
    as [window.location]; the body never reads it. *)
Definition fetchSettings (win : Location) (r : FetchResult)
    (ctx : SettingsContextType) : SettingsContextType :=
  let ctx1 :=
    match r with
    | fetchResponse true _ (Some data) =>
        {| settings := Some data; loading := loading ctx |}
    | _ => ctx
    end in
  {| settings := settings ctx1; loading := false |}.

(** Value of a key of a JSON object held as an association list. *)
Fixpoint objectGet (o : list (string * string)) (k : string) : option string :=
  match o with
  | [] => None
  | (k', v) :: o' => if String.eqb k' k then Some v else objectGet o' k
  end.

(* ================================================================== *)
(** * [Sidebar] (Sidebar.tsx) *)
(* ================================================================== *)

(** A JavaScript [Set<string>]: its elements in insertion order, which is
    the order [Array.from] lists them in. *)
Module JsSet.

Definition has (s : list string) (x : string) : bool := bool_decide (x ∈ s).

(** [s.add(x)]: a new element goes last, a present one stays in place. *)
Definition add (s : list string) (x : string) : list string :=
  if has s x then s else s ++ [x].

(** [s.delete(x)] *)
Definition delete (s : list string) (x : string) : list string :=
  filter (fun y => y <> x) s.

(** [new Set(array)] *)
Definition ofArray (a : list string) : list string := fold_left add a [].

(** [Array.from(s)] *)
Definition toArray (s : list string) : list string := s.

End JsSet.

(** The updater [toggleSubmenu] passes to [setOpenSubmenus]. *)
Definition toggleSubmenu (path : string) (prev : list string) : list string :=
  let newSet := JsSet.ofArray (JsSet.toArray prev) in
  if JsSet.has newSet path then JsSet.delete newSet path
  else JsSet.add newSet path.

(** React key of a rendered item: the path of a submenu, or
    [`${item.label}-${index}`], kept as its two components. *)
Inductive ItemKey :=
| keyPath (path : string)
| keyLabelIndex (label : string) (index : nat).

(** The props of one [<SidebarItem>]; [onToggle] is the path the handler
    toggles, [None] for [undefined]. *)
Record SidebarItemProps := mkSidebarItemProps {
  key : ItemKey;
  item : NavItem;
  isOpen : bool;
  onToggle : option string
}.

Definition itemLabel (it : NavItem) : string :=
  match it with
  | link l => label l
  | header h => header_label h
  | submenu s => submenu_label s
  end.

(** The body of [settings.navItems.map((item, index) => ...)]. *)
Definition sidebarItem (openSubmenus : list string) (index : nat) (it : NavItem)
  : SidebarItemProps :=
  {| key := match it with
            | submenu s => keyPath (path s)
            | _ => keyLabelIndex (itemLabel it) index
            end;
     item := it;
     isOpen := match it with
               | submenu s => JsSet.has openSubmenus (path s)
               | _ => false
               end;
     onToggle := match it with
                 | submenu s => Some (path s)
                 | _ => None
                 end |}.

Definition sidebarItems (settings : SidebarSettings) (openSubmenus : list string)
  : list SidebarItemProps :=
  imap (sidebarItem openSubmenus) (navItems settings).

(* ================================================================== *)
(** * The application state and the operations that change it *)
(* ================================================================== *)

(** The state the components hold ([useState]), the page's location, the
    inline style of the document root and the browser's [localStorage]. *)
Record AppState := mkAppState {
  ctx : SettingsContextType;
  isMobile : bool;
  isMobileMenuOpen : bool;
  isExpanded : bool;
  isHovering : bool;
  openSubmenus : list string;
  page : PageState;
  location : Location;
  rootStyle : gmap string string;
  localStorage : gmap string string
}.

Definition withCtx (v : SettingsContextType) (s : AppState) : AppState :=
  mkAppState v (isMobile s) (isMobileMenuOpen s) (isExpanded s) (isHovering s)
             (openSubmenus s) (page s) (location s) (rootStyle s) (localStorage s).

Definition setMatches (v : bool) (s : AppState) : AppState :=
  mkAppState (ctx s) v (isMobileMenuOpen s) (isExpanded s) (isHovering s)
             (openSubmenus s) (page s) (location s) (rootStyle s) (localStorage s).

Definition setIsMobileMenuOpen (v : bool) (s : AppState) : AppState :=
  mkAppState (ctx s) (isMobile s) v (isExpanded s) (isHovering s)
             (openSubmenus s) (page s) (location s) (rootStyle s) (localStorage s).

Definition setIsExpanded (v : bool) (s : AppState) : AppState :=
  mkAppState (ctx s) (isMobile s) (isMobileMenuOpen s) v (isHovering s)
             (openSubmenus s) (page s) (location s) (rootStyle s) (localStorage s).

Definition setIsHovering (v : bool) (s : AppState) : AppState :=
  mkAppState (ctx s) (isMobile s) (isMobileMenuOpen s) (isExpanded s) v
             (openSubmenus s) (page s) (location s) (rootStyle s) (localStorage s).

Definition setOpenSubmenus (f : list string -> list string) (s : AppState) : AppState :=
  mkAppState (ctx s) (isMobile s) (isMobileMenuOpen s) (isExpanded s) (isHovering s)
             (f (openSubmenus s)) (page s) (location s) (rootStyle s) (localStorage s).

Definition withPage (v : PageState) (s : AppState) : AppState :=
  mkAppState (ctx s) (isMobile s) (isMobileMenuOpen s) (isExpanded s) (isHovering s)
             (openSubmenus s) v (location s) (rootStyle s) (localStorage s).

Definition withHash (h : string) (s : AppState) : AppState :=
  mkAppState (ctx s) (isMobile s) (isMobileMenuOpen s) (isExpanded s) (isHovering s)
             (openSubmenus s) (page s)
             (mkLocation (origin (location s)) (search (location s)) h)
             (rootStyle s) (localStorage s).

Definition withRootStyle (v : gmap string string) (s : AppState) : AppState :=
  mkAppState (ctx s) (isMobile s) (isMobileMenuOpen s) (isExpanded s) (isHovering s)
             (openSubmenus s) (page s) (location s) v (localStorage s).

(** [localStorage.setItem(k, v)] *)
Definition setItem (k v : string) (s : AppState) : AppState :=
  mkAppState (ctx s) (isMobile s) (isMobileMenuOpen s) (isExpanded s) (isHovering s)
             (openSubmenus s) (page s) (location s) (rootStyle s)
             (<[k := v]> (localStorage s)).

(** AppLayout, first effect: the initial sidebar state from [localStorage]
    or the settings. *)
Definition initSidebarState (s : AppState) : AppState :=
  match settings (ctx s) with
  | Some cfg =>
      if loading (ctx s) then s
      else
        let savedState := localStorage s !! "sidebarState" in
        let initialState :=
          if truthyOpt savedState
          then bool_decide (savedState = Some "expanded")
          else String.eqb (defaultState (sidebar cfg)) "expanded" in
        if negb (isMobile s) then setIsExpanded initialState s
        else setIsExpanded false s
  | None => s
  end.

(** AppLayout, second effect (App.tsx, "Update local storage when isExpanded
    changes on desktop"). *)
Definition persistSidebarState (s : AppState) : AppState :=
  if negb (isMobile s)
  then setItem "sidebarState" (if isExpanded s then "expanded" else "collapsed") s
  else s.

(** [style.setProperty(name, value)] on the inline style of the root: the
    empty string removes the property, a value that does not parse leaves
    the style as it is, any other value is stored as parsed. *)
Definition setProperty `{Browser} (name value : string)
    (style : gmap string string) : gmap string string :=
  if String.eqb value "" then delete name style
  else match CSS_parseValue name value with
       | Some stored => <[name := stored]> style
       | None => style
       end.

(** AppLayout, third effect: the theme as CSS variables of the root. *)
Definition applyTheme `{Browser} (s : AppState) : AppState :=
  match settings (ctx s) with
  | Some cfg =>
      match theme cfg with
      | Some entries =>
          withRootStyle
            (fold_left (fun st kv => setProperty ("--color-" +:+ kv.1) kv.2 st)
                       entries (rootStyle s)) s
      | None => s
      end
  | None => s
  end.

(** AppLayout, fourth effect: close the mobile menu on navigation. *)
Definition closeMenuOnNavigation (s : AppState) : AppState :=
  if isMobile s then setIsMobileMenuOpen false s else s.

(** Sidebar, effect on [openSubmenus]. *)
Definition persistOpenSubmenus `{Browser} (s : AppState) : AppState :=
  setItem "openSubmenus" (JSON_stringify (JsSet.toArray (openSubmenus s))) s.

(** Sidebar, click on the profile block. *)
Definition profileClick `{Browser} (s : AppState) : AppState :=
  match settings (ctx s) with
  | Some cfg =>
      let s1 := withHash (location_setHash (profile_href (profile (sidebar cfg)))) s in
      if isMobile s1 then setIsMobileMenuOpen false s1 else s1
  | None => s
  end.

(** Sidebar, [onMouseEnter] / [onMouseLeave] of the desktop panel. *)
Definition mouseEnter (s : AppState) : AppState :=
  if negb (isExpanded s) then setIsHovering true s else s.

Definition mouseLeave (s : AppState) : AppState :=
  if negb (isExpanded s) then setIsHovering false s else s.

(** PageContent's effect on the application state; it runs once the
    settings are loaded. *)
Definition runPageEffect `{Browser} (s : AppState) : AppState :=
  match settings (ctx s) with
  | Some cfg => withPage (fst (pageContent cfg (location s) (page s))) s
  | None => s
  end.

(** Every handler and effect of the sources. *)
Inductive Op :=
| opFetchSettings (r : FetchResult)
| opMediaChange (matches : bool)
| opHashChange (h : string)
| opInitSidebarState
| opPersistSidebarState
| opApplyTheme
| opCloseMenuOnNavigation
| opOpenMobileMenu
| opCloseMobileMenu
| opPersistOpenSubmenus
| opToggleSubmenu (path : string)
| opProfileClick
| opMouseEnter
| opMouseLeave
| opToggleExpanded
| opPageEffect
| opIframeLoaded.

Definition exec `{Browser} (o : Op) (s : AppState) : AppState :=
  match o with
  | opFetchSettings r => withCtx (fetchSettings (location s) r (ctx s)) s
  | opMediaChange m => setMatches m s
  | opHashChange h => withHash h s
  | opInitSidebarState => initSidebarState s
  | opPersistSidebarState => persistSidebarState s
  | opApplyTheme => applyTheme s
  | opCloseMenuOnNavigation => closeMenuOnNavigation s
  | opOpenMobileMenu => setIsMobileMenuOpen true s
  | opCloseMobileMenu => setIsMobileMenuOpen false s
  | opPersistOpenSubmenus => persistOpenSubmenus s
  | opToggleSubmenu p => setOpenSubmenus (toggleSubmenu p) s
  | opProfileClick => profileClick s
  | opMouseEnter => mouseEnter s
  | opMouseLeave => mouseLeave s
  | opToggleExpanded => setIsExpanded (negb (isExpanded s)) s
  | opPageEffect => runPageEffect s
  | opIframeLoaded => withPage (iframeLoaded (page s)) s
  end.

(** One step of the application: some handler or effect runs. *)
Definition step `{Browser} (s s' : AppState) : Prop := exists o, s' = exec o s.

(** The two keys the application persists. *)
Definition persistedKeys : list string := ["sidebarState"; "openSubmenus"].

(* ================================================================== *)
(** * A sample configuration and the browser's answers on it *)
(* ================================================================== *)

Module Sample.

Definition pageOrigin : string := "https://dash.example.com".

(** [new URL(url, pageOrigin)] on the URLs of the sample configuration:
    a path resolves against the page's origin, a network-path reference
    takes its host from the reference, and ["//"], which names no host,
    is rejected. *)
Definition urlTable : list (string * option URL) :=
  [ ("/local/page.html",
     Some (mkURL "https:" "dash.example.com" "" "/local/page.html" [] None));
    ("//cdn.example.net/widget",
     Some (mkURL "https:" "cdn.example.net" "" "/widget" [] None));
    ("//", None);
    ("https://app.mypancho.com/services?tab=1#top",
     Some (mkURL "https:" "app.mypancho.com" "" "/services"
                 [("tab", "1")] (Some "top")));
    ("https://mypancho.com/billing",
     Some (mkURL "https:" "mypancho.com" "" "/billing" [] None));
    ("https://evil.example.org/x",
     Some (mkURL "https:" "evil.example.org" "" "/x" [] None)) ].

Fixpoint tableGet {A} (t : list (string * A)) (k : string) : option A :=
  match t with
  | [] => None
  | (k', v) :: t' => if String.eqb k' k then Some v else tableGet t' k
  end.

Definition parseUrl (url base : string) : option URL :=
  if String.eqb base pageOrigin then mjoin (tableGet urlTable url) else None.

(** [new URLSearchParams(search)] on the query strings used below. *)
Definition searchTable : list (string * list (string * string)) :=
  [ ("", []);
    ("?lang=en", [("lang", "en")]);
    ("?primary=red&lang=en", [("primary", "red"); ("lang", "en")]) ].

Definition parseSearch (s : string) : list (string * string) :=
  default [] (tableGet searchTable s).

Fixpoint joinWith (sep : string) (l : list string) : string :=
  match l with
  | [] => ""
  | [x] => x
  | x :: l' => x +:+ sep +:+ joinWith sep l'
  end.

(** Serialisation of URLs whose components need no percent-encoding. *)
Definition urlToString (u : URL) : string :=
  protocol u +:+ "//" +:+ hostname u
    +:+ (if String.eqb (port u) "" then "" else ":" +:+ port u)
    +:+ pathname u
    +:+ match searchParams u with
        | [] => ""
        | ps => "?" +:+ joinWith "&" (map (fun kv => kv.1 +:+ "=" +:+ kv.2) ps)
        end
    +:+ match fragment u with
        | Some f => "#" +:+ f
        | None => ""
        end.

Definition quote : string := String (Ascii.ascii_of_nat 34) "".

(** [JSON.stringify] of an array of strings that need no escaping. *)
Definition stringifyArray (l : list string) : string :=
  "[" +:+ joinWith "," (map (fun x => quote +:+ x +:+ quote) l) +:+ "]".

(** The colours of the sample theme parse and are stored as written; the
    one other value used below, with its unmatched closing bracket, does
    not parse. *)
Definition parseCssValue (name value : string) : option string :=
  if String.eqb value "hsl(220, 13%, 61%)" || String.eqb value "hsl(0, 0%, 90%)"
  then Some value else None.

Definition browser : Browser :=
  {| URL_parse := parseUrl;
     URL_toString := urlToString;
     URLSearchParams_parse := parseSearch;
     fragmentEncode := fun f => f;
     location_setHash := fun v => if startsWith v "#" then v else "#" +:+ v;
     JSON_stringify := stringifyArray;
     CSS_parseValue := parseCssValue |}.

Definition home : NavLink :=
  mkNavLink "#/home" "Home" "Home" (Some "/local/page.html").
Definition services : NavLink :=
  mkNavLink "#/services" "My Services" "Box"
            (Some "https://app.mypancho.com/services?tab=1#top").
Definition billing : NavLink :=
  mkNavLink "#/services/billing" "Billing" "CreditCard"
            (Some "https://mypancho.com/billing").
Definition external : NavLink :=
  mkNavLink "#/external" "External" "Globe" (Some "https://evil.example.org/x").
Definition widget : NavLink :=
  mkNavLink "#/widget" "Widget" "Puzzle" (Some "//cdn.example.net/widget").
Definition broken : NavLink :=
  mkNavLink "#/broken" "Broken" "Bug" (Some "//").
Definition plain : NavLink :=
  mkNavLink "#/about" "About" "Info" None.

Definition account : NavSubmenu :=
  mkNavSubmenu "Manage Account" "User" "account"
               [services; billing; external; widget; broken].

Definition items : list NavItem :=
  [ link home; header (mkNavHeader "Manage"); submenu account; link plain ].

Definition settings : AppSettings :=
  {| theme := Some [("primary", "hsl(220, 13%, 61%)"); ("border", "hsl(0, 0%, 90%)")];
     security := Some (mkSecuritySettings (Some ["mypancho.com"]));
     sidebar := {| defaultState := "expanded";
                   logoUrl := "/logo.png";
                   profile := mkProfile "Ada" "Admin" "User" "#/profile";
                   navItems := items |} |}.

Definition at_ (h q : string) : Location := mkLocation pageOrigin q h.

Definition blank : PageState := mkPageState None None false.

(** A menu whose first entry is a submenu and whose second is a link. *)
Definition submenuFirst : list NavItem :=
  [ submenu (mkNavSubmenu "Group" "Folder" "group"
                          [mkNavLink "#/a" "A" "Dot" None]);
    link (mkNavLink "#/b" "B" "Dot" None) ].

End Sample.

(* ================================================================== *)
(** * Reference readings used to state the properties *)
(* ================================================================== *)

(** The href an entry offers as a default: a link offers its own, a
    submenu that of its first child, a header or an empty submenu none. *)
Definition linkableHref (it : NavItem) : option string :=
  match it with
  | link l => Some (href l)
  | submenu s => href <$> head (children s)
  | header _ => None
  end.

(** The first entry of type [link], wherever it stands. *)
Fixpoint firstLink (items : list NavItem) : option NavLink :=
  match items with
  | [] => None
  | link l :: _ => Some l
  | _ :: rest => firstLink rest
  end.

(** The first child of the first submenu that has children. *)
Fixpoint firstSubmenuChild (items : list NavItem) : option NavLink :=
  match items with
  | [] => None
  | submenu s :: rest =>
      match children s with
      | c :: _ => Some c
      | [] => firstSubmenuChild rest
      end
  | _ :: rest => firstSubmenuChild rest
  end.

(** The default href read as "links first": the first link's href if the
    menu has a link, else the first submenu child's, else ["#/"]. *)
Definition defaultHrefLinksFirst (items : list NavItem) : string :=
  match firstLink items with
  | Some l => href l
  | None =>
      match firstSubmenuChild items with
      | Some c => href c
      | None => "#/"
      end
  end.

(** A host is covered by a domain when it is the domain or ends with a dot
    followed by the domain. *)
Definition hostCovered (host domain : string) : Prop :=
  host = domain \/ exists p, host = p +:+ "." +:+ domain.

(** Running a sequence of handlers and effects. *)
Definition run `{Browser} (ops : list Op) (s : AppState) : AppState :=
  fold_left (fun acc o => exec o acc) ops s.

(** The three final states of the effect of [PageContent]. *)
Definition cleared : PageState := mkPageState None None false.
Definition failed (msg : string) : PageState := mkPageState None (Some msg) false.
Definition embedded (src : string) : PageState := mkPageState (Some src) None true.

(** A URL reference that begins with ['/'] or with ['./']. *)
Definition beginsRelative (url : string) : Prop :=
  (exists r, url = "/" +:+ r) \/ (exists r, url = "./" +:+ r).

(** The settings the README's "How It Works" describes: a query parameter
    named like a key of [theme], or named [logoUrl], replaces the value read
    from the file. *)
Definition settingsWithOverrides (params : list (string * string))
    (data : AppSettings) : AppSettings :=
  {| theme := (fun entries =>
                 map (fun kv => (kv.1, default kv.2 (objectGet params kv.1))) entries)
              <$> theme data;
     security := security data;
     sidebar := {| defaultState := defaultState (sidebar data);
                   logoUrl := default (logoUrl (sidebar data))
                                      (objectGet params "logoUrl");
                   profile := profile (sidebar data);
                   navItems := navItems (sidebar data) |} |}.

(* ================================================================== *)
(** * Further parts of the components *)
(* ================================================================== *)

(** What [AppLayout] returns (App.tsx): the loading notice while the
    settings are being fetched, the error notice when there are none, the
    dashboard otherwise. *)
Inductive LayoutView :=
| LoadingSettings
| SettingsError
| Dashboard (cfg : AppSettings).

Definition layoutView (c : SettingsContextType) : LayoutView :=
  if loading c then LoadingSettings
  else match settings c with
       | None => SettingsError
       | Some cfg => Dashboard cfg
       end.

(** Sidebar.tsx: [isMobile ? true : (isExpanded || (isHovering && !isExpanded))] *)
Definition isEffectivelyExpanded (s : AppState) : bool :=
  if isMobile s then true
  else isExpanded s || (isHovering s && negb (isExpanded s)).

(** The initialiser of [openSubmenus] in [Sidebar], run in a browser.
    [parse saved] stands for the strings [new Set(JSON.parse(saved))] is
    built from, [None] when that throws; the result is [None] when the
    initialiser throws. *)
Definition initialOpenSubmenus (parse : string -> option (list string))
    (storage : gmap string string) : option (list string) :=
  match storage !! "openSubmenus" with
  | Some savedSubmenus =>
      if truthy savedSubmenus then JsSet.ofArray <$> parse savedSubmenus
      else Some []
  | None => Some []
  end.

Module SampleStore.

(** [JSON.parse] on the texts the examples store. *)
Definition parseStrings (s : string) : option (list string) :=
  if String.eqb s (Sample.stringifyArray ["account"; "reports"])
  then Some ["account"; "reports"]
  else if String.eqb s "[]" then Some [] else None.

(** A desktop session with loaded settings, the sidebar collapsed, two
    submenus open and something already stored. *)
Definition desktop : AppState :=
  {| ctx := mkSettingsContext (Some Sample.settings) false;
     isMobile := false;
     isMobileMenuOpen := false;
     isExpanded := false;
     isHovering := false;
     openSubmenus := ["account"; "reports"];
     page := Sample.blank;
     location := Sample.at_ "#/home" "";
     rootStyle := {["font-size" := "14px"]};
     localStorage := {["sidebarState" := "expanded"]} |}.

(** A theme with colours that parse, an empty value and a value with an
    unmatched closing bracket, applied to a root that already carries some
    style. *)
Definition themeEntries : list (string * string) :=
  [ ("primary", "hsl(220, 13%, 61%)"); ("border", "hsl(0, 0%, 90%)");
    ("muted", ""); ("accent", "red)") ].

Definition themedSettings : AppSettings :=
  {| theme := Some themeEntries;
     security := security Sample.settings;
     sidebar := sidebar Sample.settings |}.

Definition themed : AppState :=
  {| ctx := mkSettingsContext (Some themedSettings) false;
     isMobile := false;
     isMobileMenuOpen := false;
     isExpanded := false;
     isHovering := false;
     openSubmenus := [];
     page := Sample.blank;
     location := Sample.at_ "#/home" "";
     rootStyle := {[ "font-size" := "14px"; "--color-muted" := "grey";
                     "--color-accent" := "teal" ]};
     localStorage := ∅ |}.

End SampleStore.

(** The value a property has after [setProperty] on it, given the value it
    had. *)
Definition propertyAfter `{Browser} (name value : string) (old : option string)
  : option string :=
  if String.eqb value "" then None
  else match CSS_parseValue name value with
       | Some stored => Some stored
       | None => old
       end.

(* ================================================================== *)
(** * [PageContent] over a session: the effect and its dependencies *)
(* ================================================================== *)

(** The component between passes: its state, and the dependency array
    [[iframeUrl, iframeHash, settings?.security?.allowedIframeDomains]] of
    the last pass in which the effect ran ([None] before the first pass).
    The third dependency is compared by identity in the source; within a
    session the settings object is the one [fetchSettings] stored, so that
    identity and equality of the value agree. *)
Record PageComponent := mkPageComponent {
  pageState : PageState;
  lastDeps : option (option string * string * option (list string))
}.

Definition pageDeps (cfg : AppSettings) (loc : Location)
  : option string * string * option (list string) :=
  (routeIframeUrl cfg loc, routeIframeHash cfg loc,
   security cfg ≫= allowedIframeDomains).

(** The component as mounted: the initial values of the three [useState]. *)
Definition mountedPage : PageComponent :=
  mkPageComponent (mkPageState None None false) None.

(** One pass of [PageContent], settled: the effect runs on the first pass
    and whenever a dependency differs from the last run; otherwise the
    state stays as it is. *)
Definition pagePass `{Browser} (cfg : AppSettings) (loc : Location)
    (c : PageComponent) : PageComponent :=
  if decide (lastDeps c = Some (pageDeps cfg loc)) then c
  else mkPageComponent
         (pageEffect cfg loc (routeIframeUrl cfg loc) (routeIframeHash cfg loc)
                     (pageState c))
         (Some (pageDeps cfg loc)).

(** What the component shows. *)
Definition pageView (cfg : AppSettings) (loc : Location) (c : PageComponent) : View :=
  render (activeItem cfg loc) (hash loc) (pageState c).

(** What happens to a mounted [PageContent]: the hash changes, or the
    iframe reports that it has loaded. *)
Inductive PageEvent :=
| hashChanged (h : string)
| frameLoaded.

Definition pageStep `{Browser} (cfg : AppSettings) (pageOrigin query : string)
    (c : PageComponent) (e : PageEvent) : PageComponent :=
  match e with
  | hashChanged h => pagePass cfg (mkLocation pageOrigin query h) c
  | frameLoaded => mkPageComponent (iframeLoaded (pageState c)) (lastDeps c)
  end.

(** A session of [PageContent]: mounted at hash [h0] with the settings as
    loaded, then a sequence of events.  Origin and query string are those
    of the page load: the sources never change them, and the address bar
    cannot change them without a reload. *)
Definition pageSession `{Browser} (cfg : AppSettings) (pageOrigin query h0 : string)
    (events : list PageEvent) : PageComponent :=
  fold_left (pageStep cfg pageOrigin query) events
            (pagePass cfg (mkLocation pageOrigin query h0) mountedPage).

(** The hash the session ends at. *)
Definition finalHash (h0 : string) (events : list PageEvent) : string :=
  fold_left (fun h e => match e with
                        | hashChanged h' => h'
                        | frameLoaded => h
                        end) events h0.

(** A view without its loading indicator. *)
Definition stripLoading (v : View) : View :=
  match v with
  | Frame src title _ => Frame src title false
  | _ => v
  end.

Module SampleTwins.

(** Two routes that embed the same page. *)
Definition items : list NavItem :=
  [ link (mkNavLink "#/a" "A" "Dot" (Some "/local/page.html"));
    link (mkNavLink "#/b" "B" "Dot" (Some "/local/page.html")) ].

Definition settings : AppSettings :=
  {| theme := None;
     security := security Sample.settings;
     sidebar := {| defaultState := "collapsed";
                   logoUrl := "/logo.png";
                   profile := profile (sidebar Sample.settings);
                   navItems := items |} |}.

End SampleTwins.

(** The state the effect leaves at hash [h]. *)
Definition settledState `{Browser} (cfg : AppSettings) (pageOrigin query h : string)
  : PageState :=
  fst (pageContent cfg (mkLocation pageOrigin query h)
                   (mkPageState None None false)).

(** Between events the component holds the dependencies of the current
    hash, and the URL and the error the effect leaves at that hash. *)
Definition pageInSync `{Browser} (cfg : AppSettings) (pageOrigin query h : string)
    (c : PageComponent) : Prop :=
  lastDeps c = Some (pageDeps cfg (mkLocation pageOrigin query h)) /\
  finalIframeUrl (pageState c)
    = finalIframeUrl (settledState cfg pageOrigin query h) /\
  securityError (pageState c)
    = securityError (settledState cfg pageOrigin query h).

(* ================================================================== *)
(** * Facts about the string primitives *)
(* ================================================================== *)

Section StringFacts.

Lemma string_app_nil_l (t : string) : "" +:+ t = t.
Proof. reflexivity. Qed.

Lemma string_app_cons (c : ascii) (p t : string) :
  String c p +:+ t = String c (p +:+ t).
Proof. reflexivity. Qed.

Lemma string_app_nil_r (t : string) : t +:+ "" = t.
Proof.
  induction t as [|c t IH]; [done|]. by rewrite string_app_cons, IH.
Qed.

Lemma string_length_app (p t : string) :
  String.length (p +:+ t) = String.length p + String.length t.
Proof.
  induction p as [|c p IH]; [done|].
  rewrite string_app_cons. simpl. by rewrite IH.
Qed.

Lemma startsWith_app (s p : string) :
  startsWith s p = true <-> exists t, s = p +:+ t.
Proof.
  unfold startsWith. revert s.
  induction p as [|c p IH]; intros [|d s]; simpl.
  - split; [intros _; by exists "" | done].
  - split; [intros _; by exists (String d s) | done].
  - split; [done | intros [t Ht]; discriminate].
  - destruct (Ascii.ascii_dec c d) as [->|Hne].
    + rewrite IH. split; intros [t Ht]; exists t;
        rewrite string_app_cons in *; congruence.
    + split; [done | intros [t Ht]; rewrite string_app_cons in Ht; congruence].
Qed.

Lemma charAt_app_length (p t : string) :
  charAt (p +:+ t) (String.length p) = charAt t 0.
Proof.
  unfold charAt. induction p as [|c p IH]; [done|].
  by rewrite string_app_cons.
Qed.

Lemma substring_all (t : string) :
  String.substring 0 (String.length t) t = t.
Proof. induction t as [|c t IH]; simpl; [done | by rewrite IH]. Qed.

Lemma substring_skip (p t : string) (m : nat) :
  String.substring (String.length p) m (p +:+ t) = String.substring 0 m t.
Proof.
  induction p as [|c p IH]; [done|]. by rewrite string_app_cons.
Qed.

Lemma substringFrom_app (p t : string) :
  substringFrom (p +:+ t) (String.length p) = t.
Proof.
  unfold substringFrom. rewrite substring_skip, string_length_app.
  replace (String.length p + String.length t - String.length p)
    with (String.length t) by lia.
  apply substring_all.
Qed.

Lemma string_app_assoc (a b c : string) : (a +:+ b) +:+ c = a +:+ (b +:+ c).
Proof.
  induction a as [|x a IH]; [done|]. by rewrite !string_app_cons, IH.
Qed.

Lemma endsWith_app (s t : string) :
  endsWith s t = true <-> exists p, s = p +:+ t.
Proof.
  unfold endsWith. split.
  - destruct (Nat.leb_spec (String.length t) (String.length s)) as [Hle|]; [|done].
    intros Heq%String.eqb_eq.
    revert Hle Heq. generalize (String.length t) as n.
    induction s as [|c s IH]; intros n Hle Heq.
    + simpl in *. assert (n = 0) as -> by lia. simpl in Heq. subst t. by exists "".
    + simpl in Hle. destruct (decide (n = S (String.length s))) as [->|Hne].
      * replace (String.length (String c s) - S (String.length s)) with 0 in Heq
          by (simpl; lia).
        exists "". rewrite string_app_nil_l, <- Heq. simpl. by rewrite substring_all.
      * replace (String.length (String c s) - n) with (S (String.length s - n)) in Heq
          by (simpl; lia).
        simpl in Heq. destruct (IH n) as [p Hp]; [lia | done |].
        exists (String c p). by rewrite string_app_cons, Hp.
  - intros [p ->]. rewrite string_length_app.
    destruct (Nat.leb_spec (String.length t) (String.length p + String.length t));
      [|lia].
    replace (String.length p + String.length t - String.length t)
      with (String.length p) by lia.
    rewrite substring_skip, substring_all. apply String.eqb_refl.
Qed.

Lemma truthy_true (s : string) : truthy s = true <-> s <> "".
Proof.
  unfold truthy. destruct (String.eqb_spec s ""); simpl; split; congruence.
Qed.

End StringFacts.

(* ================================================================== *)
(** * [findNavItemByHref]: the longest matching link wins *)
(* ================================================================== *)

Section Routing.

Variable cur : string.

Lemma hrefAccepts_matches (l : NavLink) :
  hrefAccepts cur l = true <-> hrefMatches cur l.
Proof.
  unfold hrefAccepts, hrefMatches. split.
  - destruct (startsWith cur (href l)) eqn:Hp; [|done].
    apply startsWith_app in Hp as [t ->].
    rewrite charAt_app_length. unfold charAt.
    destruct t as [|c t]; simpl.
    + intros _. exists "". auto.
    + intros ->%Ascii.eqb_eq. exists (String "#" t). eauto.
  - intros [rest [-> Hrest]].
    assert (startsWith (href l +:+ rest) (href l) = true) as ->
      by (apply startsWith_app; eauto).
    rewrite charAt_app_length. unfold charAt.
    destruct Hrest as [->|[r ->]]; done.
Qed.

Lemma hrefAccepts_suffix (l : NavLink) :
  hrefAccepts cur l = true ->
  cur = href l +:+ substringFrom cur (hrefLen l).
Proof.
  intros [rest [Hcur _]]%hrefAccepts_matches. unfold hrefLen.
  rewrite Hcur at 2. by rewrite substringFrom_app.
Qed.

(** [checkItem] by cases on the acceptance test and on the comparison
    with the best match so far. *)
Lemma checkItem_unfold (b : option Match) (l : NavLink) :
  checkItem cur b l =
    if hrefAccepts cur l then
      match b with
      | None => Some (mkMatch l (substringFrom cur (hrefLen l)))
      | Some m =>
          if hrefLen (navLink m) <? hrefLen l
          then Some (mkMatch l (substringFrom cur (hrefLen l)))
          else b
      end
    else b.
Proof.
  unfold checkItem, hrefAccepts, hrefLen.
  destruct (startsWith cur (href l)); [|done].
  destruct (charAt cur (String.length (href l))) as [c|];
    [destruct (Ascii.eqb c "#")|]; destruct b; done.
Qed.

Lemma fold_checkItem_spec (ls : list NavLink) :
  forall b,
    match fold_left (checkItem cur) ls b with
    | None => b = None /\ forall l, l ∈ ls -> hrefAccepts cur l = false
    | Some m => bestOf cur b ls m
    end.
Proof.
  induction ls as [|x ls IH]; intros b; simpl.
  - destruct b as [m|].
    + left. split; [done|]. intros l Hl. by apply elem_of_nil in Hl.
    + split; [done|]. intros l Hl. by apply elem_of_nil in Hl.
  - specialize (IH (checkItem cur b x)).
    rewrite checkItem_unfold in IH |- *.
    destruct (fold_left (checkItem cur) ls _) as [m|].
    + destruct IH as [[Hb Hle] | (pre & post & -> & Hacc & Hh & Hpre & Hpost & Hb)].
      * destruct (hrefAccepts cur x) eqn:Hx.
        -- destruct b as [m0|].
           ++ destruct (Nat.ltb_spec (hrefLen (navLink m0)) (hrefLen x)).
              ** injection Hb as <-. right. exists [], ls. simpl.
                 repeat split; auto.
                 --- intros l Hl. by apply elem_of_nil in Hl.
                 --- intros m1 [= <-]. done.
              ** injection Hb as ->. left. split; [done|].
                 intros l [->|Hl]%elem_of_cons Hl'; auto.
           ++ injection Hb as <-. right. exists [], ls. simpl.
              repeat split; auto.
              --- intros l Hl. by apply elem_of_nil in Hl.
              --- intros m1 [=].
        -- left. split; [done|].
           intros l [->|Hl]%elem_of_cons Hl'; [congruence | auto].
      * right. exists (x :: pre), post. repeat split; auto.
        -- intros l [->|Hl]%elem_of_cons Hl'; [|auto].
           rewrite Hl' in Hb. destruct b as [m0|].
           ++ destruct (Nat.ltb_spec (hrefLen (navLink m0)) (hrefLen x)).
              ** by apply (Hb (mkMatch x (substringFrom cur (hrefLen x)))).
              ** specialize (Hb m0 eq_refl). lia.
           ++ by apply (Hb (mkMatch x (substringFrom cur (hrefLen x)))).
        -- intros m0 ->. destruct (hrefAccepts cur x); [|by apply Hb].
           destruct (Nat.ltb_spec (hrefLen (navLink m0)) (hrefLen x)).
           ++ specialize (Hb _ eq_refl). simpl in Hb. lia.
           ++ by apply Hb.
    + destruct IH as [Hb Hrej]. destruct (hrefAccepts cur x) eqn:Hx.
      * destruct b as [m0|]; [|done].
        destruct (hrefLen (navLink m0) <? hrefLen x); done.
      * split; [done|]. intros l [->|Hl]%elem_of_cons; auto.
Qed.

Lemma navLinks_cons (item : NavItem) (items : list NavItem) :
  navLinks (item :: items) = itemLinks item ++ navLinks items.
Proof. reflexivity. Qed.

(** The nested loops visit exactly [navLinks], in order. *)
Lemma fold_visitItem_flat (items : list NavItem) :
  forall b, fold_left (visitItem cur) items b
            = fold_left (checkItem cur) (navLinks items) b.
Proof.
  induction items as [|item items IH]; intros b; [done|].
  rewrite navLinks_cons, fold_left_app. simpl. rewrite IH.
  by destruct item.
Qed.

Lemma elem_of_navLinks (items : list NavItem) (l : NavLink) :
  l ∈ navLinks items <->
  link l ∈ items \/ exists s, submenu s ∈ items /\ l ∈ children s.
Proof.
  induction items as [|item items IH].
  - split; [intros H; by apply elem_of_nil in H|].
    intros [H|(s & H & _)]; by apply elem_of_nil in H.
  - rewrite navLinks_cons, elem_of_app, IH. split.
    + intros [H|[H|(s & H & Hs)]].
      * destruct item as [l'|h|s]; simpl in H.
        -- apply list_elem_of_singleton in H as ->. left. by left.
        -- by apply elem_of_nil in H.
        -- right. exists s. split; [by left | done].
      * left. by right.
      * right. exists s. split; [by right | done].
    + intros [[<-|H]%elem_of_cons | (s & [<-|H]%elem_of_cons & Hs)].
      * left. simpl. by left.
      * right. by left.
      * left. done.
      * right. right. eauto.
Qed.

End Routing.

(** C3. [findNavItemByHref] returns the first link, in visiting order, among
    the matching links of greatest href length, together with the rest of
    the hash after that href; it returns nothing exactly when no link
    matches.  A link matches when the hash is its href followed by nothing
    or by a suffix that starts with ['#']. *)
Theorem findNavItemByHref_longest_match (items : list NavItem) (cur : string) :
  match findNavItemByHref items cur with
  | Some m =>
      exists pre post,
        navLinks items = pre ++ navLink m :: post /\
        hrefMatches cur (navLink m) /\
        cur = href (navLink m) +:+ iframeHash m /\
        iframeHash m = substringFrom cur (String.length (href (navLink m))) /\
        (forall l, l ∈ pre -> hrefMatches cur l -> hrefLen l < hrefLen (navLink m)) /\
        (forall l, l ∈ post -> hrefMatches cur l -> hrefLen l <= hrefLen (navLink m))
  | None => forall l, l ∈ navLinks items -> ~ hrefMatches cur l
  end.
Proof.
  unfold findNavItemByHref. rewrite fold_visitItem_flat.
  pose proof (fold_checkItem_spec cur (navLinks items) None) as H.
  destruct (fold_left (checkItem cur) (navLinks items) None) as [m|].
  - destruct H as [[? _] | (pre & post & Heq & Hacc & Hh & Hpre & Hpost & _)];
      [done|].
    exists pre, post. repeat split; auto.
    + by apply hrefAccepts_matches.
    + rewrite Hh. by apply hrefAccepts_suffix.
    + intros l Hl Hm. apply Hpre; [done | by apply hrefAccepts_matches].
    + intros l Hl Hm. apply Hpost; [done | by apply hrefAccepts_matches].
  - destruct H as [_ Hrej]. intros l Hl Hm%hrefAccepts_matches.
    rewrite Hrej in Hm; done.
Qed.

(* ================================================================== *)
(** * The sample configuration, evaluated *)
(* ================================================================== *)

Section SampleRuns.

Import Sample.

Example route_exact :
  resolveRoute items "#/services" = Some (mkMatch services "").
Proof. reflexivity. Qed.

Example route_residual :
  resolveRoute items "#/services#invoices/7" = Some (mkMatch services "#invoices/7").
Proof. reflexivity. Qed.

Example route_no_partial_segment : resolveRoute items "#/servicesX" = None.
Proof. reflexivity. Qed.

Example route_default : resolveRoute items "#/" = Some (mkMatch home "").
Proof. reflexivity. Qed.

Example page_allowed_subdomain :
  pageContent (H := browser) settings (at_ "#/services#invoices/7" "?lang=en") blank
  = (mkPageState
       (Some "https://app.mypancho.com/services?tab=1&lang=en#invoices/7") None true,
     Frame "https://app.mypancho.com/services?tab=1&lang=en#invoices/7"
           "My Services" true).
Proof. reflexivity. Qed.

Example page_blocked :
  pageContent (H := browser) settings (at_ "#/external" "") blank
  = (mkPageState None (Some msgDomainBlocked) false, ContentBlocked msgDomainBlocked).
Proof. reflexivity. Qed.

Example page_relative :
  pageContent (H := browser) settings (at_ "#/home" "") blank
  = (mkPageState (Some "https://dash.example.com/local/page.html") None true,
     Frame "https://dash.example.com/local/page.html" "Home" true).
Proof. reflexivity. Qed.

Example page_invalid :
  pageContent (H := browser) settings (at_ "#/broken" "") blank
  = (mkPageState None (Some msgInvalidUrl) false, ContentBlocked msgInvalidUrl).
Proof. reflexivity. Qed.

Example page_welcome :
  pageContent (H := browser) settings (at_ "#/about" "") blank
  = (mkPageState None None false, Welcome "#/about").
Proof. reflexivity. Qed.

End SampleRuns.

(* ================================================================== *)
(** * [findDefaultHref] *)
(* ================================================================== *)

Lemma findDefaultHref_cons_none (it : NavItem) (rest : list NavItem) :
  linkableHref it = None -> findDefaultHref (it :: rest) = findDefaultHref rest.
Proof.
  destruct it as [l|h|s]; simpl; [done | done |].
  by destruct (children s).
Qed.

Lemma findDefaultHref_cons_some (it : NavItem) (rest : list NavItem) (h : string) :
  linkableHref it = Some h -> findDefaultHref (it :: rest) = h.
Proof.
  destruct it as [l|?|s]; simpl; [congruence | done |].
  destruct (children s); simpl; congruence.
Qed.

(** C6 (as the code has it). For the hash ["#/"] the route is resolved with
    [findDefaultHref], which is the href offered by the first entry, in
    array order, that is a link or a submenu with children (the href of the
    link, or of the submenu's first child), and ["#/"] when no entry offers
    one. *)
Theorem findDefaultHref_first_linkable (items : list NavItem) :
  resolveRoute items "#/" = findNavItemByHref items (findDefaultHref items) /\
  ((exists pre it post,
       items = pre ++ it :: post /\
       (forall x, x ∈ pre -> linkableHref x = None) /\
       linkableHref it = Some (findDefaultHref items))
   \/ ((forall x, x ∈ items -> linkableHref x = None) /\
       findDefaultHref items = "#/")).
Proof.
  split; [done|].
  induction items as [|it items IH].
  - right. split; [|done]. intros x Hx. by apply elem_of_nil in Hx.
  - destruct (linkableHref it) as [h|] eqn:Hit.
    + left. exists [], it, items. split; [done|]. split.
      * intros x Hx. by apply elem_of_nil in Hx.
      * by rewrite (findDefaultHref_cons_some _ _ _ Hit).
    + rewrite (findDefaultHref_cons_none _ _ Hit).
      destruct IH as [(pre & it' & post & -> & Hpre & Hit') | [Hnone Hdef]].
      * left. exists (it :: pre), it', post. split; [done|]. split; [|done].
        intros x [->|Hx]%elem_of_cons; auto.
      * right. split; [|done]. intros x [->|Hx]%elem_of_cons; auto.
Qed.

(** C6, counterexample: with a submenu before a link the loop returns the
    submenu's first child, not the first link. *)
Lemma findDefaultHref_not_links_first :
  findDefaultHref Sample.submenuFirst = "#/a" /\
  defaultHrefLinksFirst Sample.submenuFirst = "#/b" /\
  findDefaultHref Sample.submenuFirst <> defaultHrefLinksFirst Sample.submenuFirst.
Proof. repeat split; done. Qed.

(* ================================================================== *)
(** * The open-submenu set *)
(* ================================================================== *)

Section OpenSubmenus.

Implicit Types (s a : list string) (x y p : string).

Lemma has_true s x : JsSet.has s x = true <-> x ∈ s.
Proof. unfold JsSet.has. apply bool_decide_eq_true. Qed.

Lemma has_ext s1 s2 x : (x ∈ s1 <-> x ∈ s2) -> JsSet.has s1 x = JsSet.has s2 x.
Proof. intros H. unfold JsSet.has. by apply bool_decide_ext. Qed.

Lemma elem_of_add s x y : x ∈ JsSet.add s y <-> x ∈ s \/ x = y.
Proof.
  unfold JsSet.add. destruct (JsSet.has s y) eqn:Hy.
  - apply has_true in Hy. split; [auto | intros [?| ->]; done].
  - rewrite elem_of_app, list_elem_of_singleton. done.
Qed.

Lemma elem_of_delete s x y : x ∈ JsSet.delete s y <-> x ∈ s /\ x <> y.
Proof. unfold JsSet.delete. rewrite list_elem_of_filter. tauto. Qed.

Lemma elem_of_fold_add a : forall s x, x ∈ fold_left JsSet.add a s <-> x ∈ s \/ x ∈ a.
Proof.
  induction a as [|y a IH]; intros s x; simpl.
  - rewrite elem_of_nil. tauto.
  - rewrite IH, elem_of_add, elem_of_cons. tauto.
Qed.

Lemma elem_of_ofArray a x : x ∈ JsSet.ofArray a <-> x ∈ a.
Proof. unfold JsSet.ofArray. rewrite elem_of_fold_add, elem_of_nil. tauto. Qed.

Lemma elem_of_toggleSubmenu p s x :
  x ∈ toggleSubmenu p s <-> (x ∈ s /\ x <> p) \/ (x = p /\ p ∉ s).
Proof.
  unfold toggleSubmenu, JsSet.toArray.
  destruct (JsSet.has (JsSet.ofArray s) p) eqn:Hp.
  - apply has_true in Hp. rewrite elem_of_ofArray in Hp.
    rewrite elem_of_delete, elem_of_ofArray. tauto.
  - assert (p ∉ s) as Hn.
    { intros Hin. rewrite <- elem_of_ofArray in Hin. apply has_true in Hin.
      congruence. }
    rewrite elem_of_add, elem_of_ofArray.
    split; [|tauto]. intros [Hx| ->]; [|tauto].
    left. split; [done|]. by intros ->.
Qed.

(** The model keeps the invariant of a [Set]: no element twice. *)
Lemma NoDup_add s y : NoDup s -> NoDup (JsSet.add s y).
Proof.
  intros Hs. unfold JsSet.add. destruct (JsSet.has s y) eqn:Hy; [done|].
  apply NoDup_app. split; [done|]. split; [|apply NoDup_singleton].
  intros x Hx ->%list_elem_of_singleton.
  apply has_true in Hx. congruence.
Qed.

Lemma NoDup_fold_add a : forall s, NoDup s -> NoDup (fold_left JsSet.add a s).
Proof. induction a as [|y a IH]; intros s Hs; simpl; auto using NoDup_add. Qed.

Lemma NoDup_toggleSubmenu p s : NoDup (toggleSubmenu p s).
Proof.
  assert (NoDup (JsSet.ofArray s)) as Hc by apply NoDup_fold_add, NoDup_nil_2.
  unfold toggleSubmenu, JsSet.toArray.
  destruct (JsSet.has (JsSet.ofArray s) p).
  - by apply NoDup_filter.
  - by apply NoDup_add.
Qed.

(** Copying a set changes nothing. *)
Lemma fold_add_fresh a : forall s,
  NoDup (s ++ a) -> fold_left JsSet.add a s = s ++ a.
Proof.
  induction a as [|y a IH]; intros s Hs; simpl.
  - by rewrite app_nil_r.
  - assert (JsSet.add s y = s ++ [y]) as ->.
    { unfold JsSet.add. destruct (JsSet.has s y) eqn:Hy; [|done].
      apply has_true in Hy. apply NoDup_app in Hs as (_ & Hd & _).
      destruct (Hd y Hy). by left. }
    rewrite IH; rewrite <- app_assoc; done.
Qed.

Lemma delete_absent s y : y ∉ s -> JsSet.delete s y = s.
Proof.
  unfold JsSet.delete. induction s as [|x s IH]; intros Hy; [done|].
  apply not_elem_of_cons in Hy as [Hne Hy].
  rewrite filter_cons_True by (by intros ->). by rewrite IH.
Qed.

Lemma ofArray_NoDup s : NoDup s -> JsSet.ofArray s = s.
Proof. intros Hs. unfold JsSet.ofArray. by rewrite fold_add_fresh. Qed.

End OpenSubmenus.

(** C10. [toggleSubmenu path] removes [path] when it is open and adds it
    when it is not, leaves the membership of every other path as it was,
    and applied twice gives back a set with the members of the original. *)
Theorem toggleSubmenu_involution (path : string) (s : list string) :
  JsSet.has (toggleSubmenu path s) path = negb (JsSet.has s path) /\
  (forall q, q <> path -> JsSet.has (toggleSubmenu path s) q = JsSet.has s q) /\
  (forall q, JsSet.has (toggleSubmenu path (toggleSubmenu path s)) q = JsSet.has s q) /\
  NoDup (toggleSubmenu path (toggleSubmenu path s)).
Proof.
  split; [|split; [|split]].
  - destruct (JsSet.has s path) eqn:Hp; simpl.
    + apply has_true in Hp. apply bool_decide_eq_false.
      rewrite elem_of_toggleSubmenu. tauto.
    + apply has_true. rewrite elem_of_toggleSubmenu. right. split; [done|].
      intros Hin%has_true. congruence.
  - intros q Hq. apply has_ext. rewrite elem_of_toggleSubmenu. tauto.
  - intros q. apply has_ext. rewrite !elem_of_toggleSubmenu.
    destruct (decide (q = path)) as [->|Hne]; [|tauto].
    destruct (decide (path ∈ s)); tauto.
  - apply NoDup_toggleSubmenu.
Qed.

(** Toggling a closed submenu open and closed again restores the very same
    sequence; toggling an open one moves it to the end of the insertion
    order. *)
Lemma toggleSubmenu_twice_absent (path : string) (s : list string) :
  NoDup s -> path ∉ s -> toggleSubmenu path (toggleSubmenu path s) = s.
Proof.
  intros Hs Hp.
  assert (toggleSubmenu path s = s ++ [path]) as ->.
  { unfold toggleSubmenu, JsSet.toArray. rewrite ofArray_NoDup by done.
    unfold JsSet.add.
    assert (JsSet.has s path = false) as -> by by apply bool_decide_eq_false.
    done. }
  assert (NoDup (s ++ [path])) as Hs'.
  { apply NoDup_app. split; [done|]. split; [|apply NoDup_singleton].
    by intros x Hx ->%list_elem_of_singleton. }
  unfold toggleSubmenu, JsSet.toArray. rewrite ofArray_NoDup by done.
  assert (JsSet.has (s ++ [path]) path = true) as ->.
  { apply has_true, elem_of_app. right. by left. }
  pose proof (delete_absent s path Hp) as Hd.
  unfold JsSet.delete in *. rewrite filter_app, Hd.
  rewrite filter_cons_False, filter_nil, app_nil_r; [done | by intros H].
Qed.

Example toggleSubmenu_twice_reorders :
  toggleSubmenu "a" (toggleSubmenu "a" ["a"; "b"]) = ["b"; "a"].
Proof. reflexivity. Qed.

(* ================================================================== *)
(** * The rendered navigation *)
(* ================================================================== *)

(** C9. The sidebar renders one [SidebarItem] per entry of
    [settings.navItems], in the order of the array, each carrying its
    entry; a submenu is rendered open exactly when its path is in the set of
    open submenus, and every other entry is rendered closed. *)
Theorem sidebarItems_follow_navItems (cfg : SidebarSettings) (opened : list string) :
  length (sidebarItems cfg opened) = length (navItems cfg) /\
  map item (sidebarItems cfg opened) = navItems cfg /\
  (forall i it, navItems cfg !! i = Some it ->
     exists p, sidebarItems cfg opened !! i = Some p /\
       item p = it /\
       match it with
       | submenu s => (isOpen p = true <-> path s ∈ opened) /\
                      key p = keyPath (path s) /\ onToggle p = Some (path s)
       | _ => isOpen p = false /\
              key p = keyLabelIndex (itemLabel it) i /\ onToggle p = None
       end).
Proof.
  unfold sidebarItems. split; [apply length_imap|]. split.
  - change (map item) with (fmap (M := list) item). rewrite fmap_imap.
    rewrite (imap_ext _ (fun _ x => x)); [|done].
    generalize (navItems cfg). intros l. induction l as [|x l IH]; [done|].
    simpl. f_equal. rewrite <- IH at 2. by apply imap_ext.
  - intros i it Hi. exists (sidebarItem opened i it).
    rewrite list_lookup_imap, Hi. split; [done|]. split; [done|].
    destruct it as [l|h|s]; simpl; [done | done |].
    split; [apply has_true | done].
Qed.

(* ================================================================== *)
(** * The effect of [PageContent] *)
(* ================================================================== *)

Section PageEffect.

Context `{Browser}.

Lemma isRelative_spec (url : string) :
  isRelative url = true <->
  (exists r, url = "/" +:+ r) \/ (exists r, url = "./" +:+ r).
Proof.
  unfold isRelative. rewrite orb_true_iff, !startsWith_app. tauto.
Qed.

Lemma isAllowed_spec (allowed : list string) (host : string) :
  isAllowed allowed host = true <->
  exists d, d ∈ allowed /\ hostCovered host d.
Proof.
  unfold isAllowed, hostCovered. rewrite existsb_exists. split.
  - intros (d & Hd & Hc). exists d. split; [by apply list_elem_of_In|].
    apply orb_true_iff in Hc as [Heq|He].
    + left. by apply String.eqb_eq.
    + right. by apply endsWith_app.
  - intros (d & Hd & Hc). exists d. split; [by apply list_elem_of_In|].
    apply orb_true_iff. destruct Hc as [->|He].
    + left. apply String.eqb_refl.
    + right. by apply endsWith_app.
Qed.

Lemma isAllowed_false (allowed : list string) (host : string) :
  isAllowed allowed host = false <->
  forall d, d ∈ allowed -> ~ hostCovered host d.
Proof.
  rewrite <- not_true_iff_false, isAllowed_spec. split.
  - intros Hn d Hd Hc. apply Hn. eauto.
  - intros Hn (d & Hd & Hc). by apply (Hn d).
Qed.

(** The pass-through loop appends the page's pairs, in order, after the
    pairs already there, and touches nothing else. *)
Lemma appendParams_spec (params : list (string * string)) :
  forall u,
    searchParams (appendParams params u) = searchParams u ++ params /\
    fragment (appendParams params u) = fragment u /\
    protocol (appendParams params u) = protocol u /\
    hostname (appendParams params u) = hostname u /\
    port (appendParams params u) = port u /\
    pathname (appendParams params u) = pathname u.
Proof.
  unfold appendParams.
  induction params as [|[k v] params IH]; intros u; simpl.
  - by rewrite app_nil_r.
  - destruct (IH (searchParams_append u k v)) as (-> & -> & -> & -> & -> & ->).
    simpl. by rewrite <- app_assoc.
Qed.

Lemma composeUrl_spec (loc : Location) (iframeHash : string) (u : URL) :
  searchParams (composeUrl loc iframeHash u)
    = searchParams u ++ URLSearchParams_parse (search loc) /\
  fragment (composeUrl loc iframeHash u)
    = (if String.eqb iframeHash "" then fragment u
       else Some (fragmentEncode (stripHash iframeHash))) /\
  protocol (composeUrl loc iframeHash u) = protocol u /\
  hostname (composeUrl loc iframeHash u) = hostname u /\
  port (composeUrl loc iframeHash u) = port u /\
  pathname (composeUrl loc iframeHash u) = pathname u.
Proof.
  unfold composeUrl, truthy.
  destruct (appendParams_spec (URLSearchParams_parse (search loc)) u)
    as (Hs & Hf & Hp & Hh & Hpo & Hpa).
  destruct (String.eqb iframeHash "") eqn:He; simpl; rewrite ?He;
    repeat split; done.
Qed.

(** The effect by cases; the state it starts from plays no part. *)
Lemma pageEffect_cases (cfg : AppSettings) (loc : Location)
    (iframeUrl : option string) (iframeHash : string) (st : PageState) :
  pageEffect cfg loc iframeUrl iframeHash st =
    match iframeUrl with
    | None => cleared
    | Some url =>
        if String.eqb url "" then cleared
        else match URL_parse url (origin loc) with
             | None => failed msgInvalidUrl
             | Some u =>
                 if isRelative url || isAllowed (allowedDomains cfg) (hostname u)
                 then embedded (URL_toString (composeUrl loc iframeHash u))
                 else failed msgDomainBlocked
             end
    end.
Proof.
  unfold pageEffect, truthy, cleared, failed, embedded.
  destruct iframeUrl as [url|]; [|done].
  destruct (String.eqb url ""); [done|]. simpl.
  destruct (URL_parse url (origin loc)) as [u|]; [|done].
  destruct (isRelative url); [done|]. simpl.
  by destruct (isAllowed (allowedDomains cfg) (hostname u)).
Qed.

Lemma render_failed (a : option NavLink) (h msg : string) :
  msg <> "" -> render a h (failed msg) = ContentBlocked msg.
Proof.
  intros Hm. unfold render, failed. simpl.
  by apply truthy_true in Hm as ->.
Qed.

Lemma render_embedded (a : option NavLink) (h src : string) :
  src <> "" -> render a h (embedded src) = Frame src (frameTitle a) true.
Proof.
  intros Hs. unfold render, embedded. simpl.
  by apply truthy_true in Hs as ->.
Qed.

Lemma render_cleared (a : option NavLink) (h : string) :
  render a h cleared = Welcome h.
Proof. reflexivity. Qed.

End PageEffect.

(* ================================================================== *)
(** * The allow-list *)
(* ================================================================== *)

Lemma messages_differ : msgDomainBlocked <> msgInvalidUrl.
Proof. discriminate. Qed.

Lemma msgDomainBlocked_nonempty : msgDomainBlocked <> "".
Proof. discriminate. Qed.

Lemma msgInvalidUrl_nonempty : msgInvalidUrl <> "".
Proof. discriminate. Qed.

Lemma string_eqb_nonempty (s : string) : s <> "" -> String.eqb s "" = false.
Proof. intros Hs. by apply String.eqb_neq. Qed.

(** C1 (as the code has it). For a configured iframeUrl that begins with
    neither ['/'] nor ['./'], the allow-list is enforced before the URL is
    embedded: when no entry of [allowedIframeDomains] covers the hostname of
    the resolved URL, [finalIframeUrl] is null and the "Content Blocked"
    error is shown; and such a URL is embedded only if some entry covers its
    hostname. *)
Theorem allowlist_enforced_on_absolute_urls `{Browser}
    (cfg : AppSettings) (loc : Location) (url iframeHash : string)
    (st : PageState) (a : option NavLink) :
  url <> "" -> ~ beginsRelative url ->
  (forall u, URL_parse url (origin loc) = Some u ->
     (forall d, d ∈ allowedDomains cfg -> ~ hostCovered (hostname u) d) ->
     finalIframeUrl (pageEffect cfg loc (Some url) iframeHash st) = None /\
     securityError (pageEffect cfg loc (Some url) iframeHash st)
       = Some msgDomainBlocked /\
     render a (hash loc) (pageEffect cfg loc (Some url) iframeHash st)
       = ContentBlocked msgDomainBlocked) /\
  (forall src,
     finalIframeUrl (pageEffect cfg loc (Some url) iframeHash st) = Some src ->
     exists u d, URL_parse url (origin loc) = Some u /\
                 d ∈ allowedDomains cfg /\ hostCovered (hostname u) d).
Proof.
  intros Hurl Hrel.
  assert (isRelative url = false) as Hr.
  { apply not_true_iff_false. by rewrite isRelative_spec. }
  rewrite pageEffect_cases, (string_eqb_nonempty _ Hurl), Hr. simpl. split.
  - intros u -> Hno. apply isAllowed_false in Hno as ->.
    split; [done|]. split; [done|].
    apply render_failed, msgDomainBlocked_nonempty.
  - intros src. destruct (URL_parse url (origin loc)) as [u|]; [|done].
    destruct (isAllowed (allowedDomains cfg) (hostname u)) eqn:Ha; [|done].
    intros _. apply isAllowed_spec in Ha as (d & Hd & Hc). eauto.
Qed.

Lemma allowlist_enforced_witness :
  "https://evil.example.org/x" <> "" /\
  ~ beginsRelative "https://evil.example.org/x" /\
  finalIframeUrl
    (pageEffect (H := Sample.browser) Sample.settings (Sample.at_ "#/external" "")
                (Some "https://evil.example.org/x") "" Sample.blank) = None.
Proof.
  assert (~ beginsRelative "https://evil.example.org/x") as Hrel.
  { intros Hb. apply isRelative_spec in Hb. discriminate. }
  split; [discriminate|]. split; [exact Hrel|].
  destruct (allowlist_enforced_on_absolute_urls (H := Sample.browser)
              Sample.settings (Sample.at_ "#/external" "")
              "https://evil.example.org/x" "" Sample.blank None)
    as [Hblock _]; [discriminate | exact Hrel |].
  eapply Hblock; [reflexivity|].
  by apply isAllowed_false.
Defined.

(** C1, counterexample: a path-only iframeUrl resolves to the page's own
    host, which no entry of the allow-list covers, and is embedded. *)
Lemma allowlist_skipped_for_path_url :
  URL_parse (Browser := Sample.browser) "/local/page.html" Sample.pageOrigin
    = Some (mkURL "https:" "dash.example.com" "" "/local/page.html" [] None) /\
  (forall d, d ∈ allowedDomains Sample.settings ->
             ~ hostCovered "dash.example.com" d) /\
  pageEffect (H := Sample.browser) Sample.settings (Sample.at_ "#/home" "")
             (Some "/local/page.html") "" Sample.blank
    = embedded "https://dash.example.com/local/page.html".
Proof.
  split; [reflexivity|]. split; [|reflexivity].
  by apply isAllowed_false.
Qed.

(** C5 (as the code has it). The allow-list check is applied to a
    configured iframeUrl exactly when it begins with neither ['/'] nor
    ['./'].  A URL that begins with ['/'] (a network-path reference
    ['//host/path'] included) or ['./'] is embedded without the check
    whenever the URL constructor accepts it, whatever the allow-list is, and
    never yields the allow-list error; when the constructor rejects it, the
    invalid-URL error is shown.  Any other URL that the constructor accepts
    is embedded if the allow-list covers its hostname and blocked if not. *)
Theorem allowlist_applies_iff_not_relative `{Browser}
    (cfg : AppSettings) (loc : Location) (url iframeHash : string) (st : PageState) :
  url <> "" ->
  (beginsRelative url ->
     pageEffect cfg loc (Some url) iframeHash st
       = match URL_parse url (origin loc) with
         | Some u => embedded (URL_toString (composeUrl loc iframeHash u))
         | None => failed msgInvalidUrl
         end /\
     securityError (pageEffect cfg loc (Some url) iframeHash st)
       <> Some msgDomainBlocked /\
     (forall cfg', pageEffect cfg' loc (Some url) iframeHash st
                   = pageEffect cfg loc (Some url) iframeHash st)) /\
  (~ beginsRelative url ->
     pageEffect cfg loc (Some url) iframeHash st
       = match URL_parse url (origin loc) with
         | Some u =>
             if isAllowed (allowedDomains cfg) (hostname u)
             then embedded (URL_toString (composeUrl loc iframeHash u))
             else failed msgDomainBlocked
         | None => failed msgInvalidUrl
         end).
Proof.
  intros Hurl. split.
  - intros Hrel%isRelative_spec.
    assert (forall c, pageEffect c loc (Some url) iframeHash st
                      = match URL_parse url (origin loc) with
                        | Some u => embedded (URL_toString (composeUrl loc iframeHash u))
                        | None => failed msgInvalidUrl
                        end) as Hall.
    { intros c. by rewrite pageEffect_cases, (string_eqb_nonempty _ Hurl), Hrel. }
    split; [apply Hall|]. split.
    + rewrite Hall. destruct (URL_parse url (origin loc)); simpl; [done|].
      intros Hm. apply messages_differ. congruence.
    + intros cfg'. by rewrite !Hall.
  - intros Hrel.
    assert (isRelative url = false) as Hr.
    { apply not_true_iff_false. by rewrite isRelative_spec. }
    by rewrite pageEffect_cases, (string_eqb_nonempty _ Hurl), Hr.
Qed.

Lemma allowlist_applies_witness :
  "//cdn.example.net/widget" <> "" /\
  pageEffect (H := Sample.browser) Sample.settings (Sample.at_ "#/widget" "")
             (Some "//cdn.example.net/widget") "" Sample.blank
    = embedded "https://cdn.example.net/widget".
Proof.
  split; [discriminate|].
  destruct (allowlist_applies_iff_not_relative (H := Sample.browser)
              Sample.settings (Sample.at_ "#/widget" "")
              "//cdn.example.net/widget" "" Sample.blank)
    as [Hrel _]; [discriminate|].
  destruct Hrel as [Heq _].
  - left. by exists "/cdn.example.net/widget".
  - exact Heq.
Defined.

(** C5, counterexample: ["//"] begins with ['/'], the URL constructor
    rejects it, and the page shows "Content Blocked" instead of a frame. *)
Lemma relative_url_not_always_embedded :
  beginsRelative "//" /\
  pageEffect (H := Sample.browser) Sample.settings (Sample.at_ "#/broken" "")
             (Some "//") "" Sample.blank
    = failed msgInvalidUrl /\
  snd (pageContent (H := Sample.browser) Sample.settings
                   (Sample.at_ "#/broken" "") Sample.blank)
    = ContentBlocked msgInvalidUrl.
Proof.
  split; [left; by exists "/" | split; reflexivity].
Qed.

(* ================================================================== *)
(** * Pass-through of the query string and of the residual hash *)
(* ================================================================== *)

Lemma resolveRoute_residual (items : list NavItem) (h : string) (m : Match) :
  resolveRoute items h = Some m ->
  routeHref items h = href (navLink m) +:+ iframeHash m /\
  (iframeHash m = "" \/ exists r, iframeHash m = String "#" r).
Proof.
  unfold resolveRoute, findNavItemByHref. rewrite fold_visitItem_flat. intros Hm.
  pose proof (fold_checkItem_spec (routeHref items h) (navLinks items) None) as Hs.
  rewrite Hm in Hs.
  destruct Hs as [[? _] | (_ & _ & _ & Hacc & Hh & _)]; [done|].
  pose proof (hrefAccepts_suffix _ _ Hacc) as Hcur. rewrite <- Hh in Hcur.
  split; [done|].
  apply hrefAccepts_matches in Hacc as (rest & Hrest & Hshape).
  rewrite Hcur in Hrest at 1. apply (inj (String.append _)) in Hrest.
  by rewrite Hrest.
Qed.

(** C4. When the configured URL of the matched route passes the security
    check, the final iframe URL carries the configured URL's own query
    pairs followed by every pair of the page's query string, in order; a
    non-empty residual hash (what the current hash adds after the matched
    href, always of the form ['#' r]) replaces the fragment, which becomes
    [r] in the URL's fragment encoding; with an empty residual the
    configured URL's fragment stays.  Scheme, host, port and path are those
    of the configured URL. *)
Theorem query_and_hash_propagated `{Browser}
    (cfg : AppSettings) (loc : Location) (st : PageState)
    (m : Match) (url : string) (u : URL) :
  resolveRoute (navItems (sidebar cfg)) (hash loc) = Some m ->
  iframeUrl (navLink m) = Some url ->
  url <> "" ->
  URL_parse url (origin loc) = Some u ->
  beginsRelative url \/ (exists d, d ∈ allowedDomains cfg /\ hostCovered (hostname u) d) ->
  exists u',
    fst (pageContent cfg loc st) = embedded (URL_toString u') /\
    searchParams u' = searchParams u ++ URLSearchParams_parse (search loc) /\
    routeHref (navItems (sidebar cfg)) (hash loc)
      = href (navLink m) +:+ iframeHash m /\
    (iframeHash m = "" -> fragment u' = fragment u) /\
    (iframeHash m <> "" ->
       exists r, iframeHash m = "#" +:+ r /\ fragment u' = Some (fragmentEncode r)) /\
    protocol u' = protocol u /\ hostname u' = hostname u /\
    port u' = port u /\ pathname u' = pathname u.
Proof.
  intros Hm Hurl Hne Hparse Hpass.
  destruct (resolveRoute_residual _ _ _ Hm) as [Hres Hshape].
  exists (composeUrl loc (iframeHash m) u).
  destruct (composeUrl_spec loc (iframeHash m) u) as (Hs & Hf & Hp & Hh & Hpo & Hpa).
  split.
  - unfold pageContent, routeIframeUrl, routeIframeHash, activeItem. simpl.
    rewrite Hm. simpl. rewrite Hurl.
    rewrite pageEffect_cases, (string_eqb_nonempty _ Hne), Hparse.
    assert (isRelative url || isAllowed (allowedDomains cfg) (hostname u) = true)
      as ->; [|done].
    apply orb_true_iff. destruct Hpass as [Hr|Ha].
    + left. by apply isRelative_spec.
    + right. by apply isAllowed_spec.
  - split; [done|]. split; [done|]. split; [|split; [|done]].
    + intros He. by rewrite Hf, He.
    + intros He. destruct Hshape as [?|[r Hr]]; [done|].
      exists r. split; [done|].
      rewrite Hf, (string_eqb_nonempty _ He), Hr. done.
Qed.

Lemma query_and_hash_witness :
  resolveRoute (navItems (sidebar Sample.settings)) "#/services#invoices/7"
    = Some (mkMatch Sample.services "#invoices/7") /\
  exists u',
    fst (pageContent (H := Sample.browser) Sample.settings
           (Sample.at_ "#/services#invoices/7" "?lang=en") Sample.blank)
      = embedded (Sample.urlToString u') /\
    searchParams u' = [("tab", "1"); ("lang", "en")] /\
    fragment u' = Some "invoices/7".
Proof.
  split; [reflexivity|].
  destruct (query_and_hash_propagated (H := Sample.browser) Sample.settings
              (Sample.at_ "#/services#invoices/7" "?lang=en") Sample.blank
              (mkMatch Sample.services "#invoices/7")
              "https://app.mypancho.com/services?tab=1#top"
              (mkURL "https:" "app.mypancho.com" "" "/services"
                     [("tab", "1")] (Some "top")))
    as (u' & Hst & Hq & _ & _ & Hfrag & _).
  - reflexivity.
  - reflexivity.
  - discriminate.
  - reflexivity.
  - right. exists "mypancho.com". split; [by left|]. right. by exists "app".
  - exists u'. split; [exact Hst|]. split; [exact Hq|].
    destruct Hfrag as (r & Hr & Hf); [discriminate|].
    rewrite string_app_cons, string_app_nil_l in Hr. injection Hr as <-. exact Hf.
Defined.

(* ================================================================== *)
(** * The frame's content is a function of settings and location *)
(* ================================================================== *)

Section PageSession.

Context `{Browser}.

Variable cfg : AppSettings.
Variables pageOrigin query : string.

(** The effect reads the location for its origin and its query string
    only, and overwrites the state it starts from. *)
Lemma pageEffect_reads (h h' : string) (iframeUrl : option string)
    (iframeHash : string) (st st' : PageState) :
  pageEffect cfg (mkLocation pageOrigin query h) iframeUrl iframeHash st
  = pageEffect cfg (mkLocation pageOrigin query h') iframeUrl iframeHash st'.
Proof. by rewrite !pageEffect_cases. Qed.

Local Abbreviation settled := (settledState cfg pageOrigin query).
Local Abbreviation inSync := (pageInSync cfg pageOrigin query).

Lemma settled_same_deps (h h' : string) :
  pageDeps cfg (mkLocation pageOrigin query h)
  = pageDeps cfg (mkLocation pageOrigin query h') ->
  settled h = settled h'.
Proof.
  unfold pageDeps, settledState, pageContent. simpl. intros [= -> ->].
  apply pageEffect_reads.
Qed.

Lemma pagePass_inSync (h : string) (c : PageComponent) :
  (lastDeps c = None \/ exists h0, inSync h0 c) ->
  inSync h (pagePass cfg (mkLocation pageOrigin query h) c).
Proof.
  intros Hc. unfold pagePass.
  destruct (decide (lastDeps c = Some (pageDeps cfg (mkLocation pageOrigin query h))))
    as [Hsame|Hdiff].
  - destruct Hc as [Hnone | (h0 & Hd & Hu & He)]; [congruence|].
    assert (settled h0 = settled h) as Heq.
    { apply settled_same_deps. congruence. }
    unfold pageInSync. rewrite <- Heq. done.
  - split; [done|]. simpl. unfold settledState, pageContent. simpl.
    by rewrite (pageEffect_reads h h _ _ (pageState c) (mkPageState None None false)).
Qed.

Lemma pageStep_inSync (e : PageEvent) (h : string) (c : PageComponent) :
  inSync h c ->
  inSync (match e with hashChanged h' => h' | frameLoaded => h end)
         (pageStep cfg pageOrigin query c e).
Proof.
  intros Hc. destruct e as [h'|]; simpl.
  - apply pagePass_inSync. eauto.
  - exact Hc.
Qed.

Lemma fold_pageStep_inSync (events : list PageEvent) :
  forall h c, inSync h c ->
    inSync (finalHash h events) (fold_left (pageStep cfg pageOrigin query) events c).
Proof.
  unfold finalHash.
  induction events as [|e events IH]; intros h c Hc; [done|].
  simpl. apply IH. by apply pageStep_inSync.
Qed.

(** Whatever happened in a session, the component holds the URL and the
    error the effect leaves at the hash the session ends at. *)
Lemma pageSession_settled (h0 : string) (events : list PageEvent) :
  finalIframeUrl (pageState (pageSession cfg pageOrigin query h0 events))
    = finalIframeUrl (settled (finalHash h0 events)) /\
  securityError (pageState (pageSession cfg pageOrigin query h0 events))
    = securityError (settled (finalHash h0 events)).
Proof.
  unfold pageSession.
  destruct (fold_pageStep_inSync events h0
              (pagePass cfg (mkLocation pageOrigin query h0) mountedPage))
    as (_ & Hu & He); [|done].
  apply pagePass_inSync. by left.
Qed.

Lemma settled_any (h : string) (st : PageState) :
  fst (pageContent cfg (mkLocation pageOrigin query h) st) = settled h.
Proof. unfold settledState, pageContent. simpl. apply pageEffect_reads. Qed.

Lemma settled_outcomes (h : string) :
  (exists src, settled h = embedded src) \/
  (exists msg, settled h = failed msg /\ msg <> "") \/
  settled h = cleared.
Proof.
  unfold settledState, pageContent. simpl. rewrite pageEffect_cases.
  destruct (routeIframeUrl cfg _) as [url|]; [|by right; right].
  destruct (String.eqb url ""); [by right; right|].
  destruct (URL_parse url _) as [u|].
  - destruct (isRelative url || isAllowed (allowedDomains cfg) (hostname u)).
    + left. eexists. reflexivity.
    + right. left. exists msgDomainBlocked.
      split; [done | apply msgDomainBlocked_nonempty].
  - right. left. exists msgInvalidUrl.
    split; [done | apply msgInvalidUrl_nonempty].
Qed.

End PageSession.

(** The view, its loading indicator apart, is read off the URL and the
    error. *)
Lemma stripLoading_render (a : option NavLink) (h : string) (st st' : PageState) :
  finalIframeUrl st = finalIframeUrl st' ->
  securityError st = securityError st' ->
  stripLoading (render a h st) = stripLoading (render a h st').
Proof.
  intros Hu He. unfold render. rewrite Hu, He.
  destruct (securityError st') as [e|]; [destruct (truthy e); [done|]|];
    (destruct (finalIframeUrl st') as [u|]; [destruct (truthy u)|]; done).
Qed.

(** C8. The content of the frame is determined by the settings and the
    location.  [PageContent] is mounted once the settings are loaded and
    then sees hash changes and load events of the iframe; its effect runs
    on the first pass and whenever one of its dependencies
    [[iframeUrl, iframeHash, allowedIframeDomains]] changes.  Two such runs
    with the same settings, the same origin and the same query string that
    end at the same hash hold the same final iframe URL and the same
    security error, and show the same view; only the loading indicator of
    the frame depends on what happened before.  The URL and the error are
    those the effect computes from the settings and the location, and the
    outcome is a frame, an error or the welcome state. *)
Theorem pageSession_deterministic `{Browser} (cfg : AppSettings)
    (pageOrigin query h1 h2 : string) (events1 events2 : list PageEvent) :
  finalHash h1 events1 = finalHash h2 events2 ->
  finalIframeUrl (pageState (pageSession cfg pageOrigin query h1 events1))
    = finalIframeUrl (pageState (pageSession cfg pageOrigin query h2 events2)) /\
  securityError (pageState (pageSession cfg pageOrigin query h1 events1))
    = securityError (pageState (pageSession cfg pageOrigin query h2 events2)) /\
  stripLoading (pageView cfg (mkLocation pageOrigin query (finalHash h1 events1))
                         (pageSession cfg pageOrigin query h1 events1))
    = stripLoading (pageView cfg (mkLocation pageOrigin query (finalHash h2 events2))
                             (pageSession cfg pageOrigin query h2 events2)) /\
  (forall st,
     finalIframeUrl (pageState (pageSession cfg pageOrigin query h1 events1))
       = finalIframeUrl
           (fst (pageContent cfg (mkLocation pageOrigin query (finalHash h1 events1)) st)) /\
     securityError (pageState (pageSession cfg pageOrigin query h1 events1))
       = securityError
           (fst (pageContent cfg (mkLocation pageOrigin query (finalHash h1 events1)) st))) /\
  ((exists src,
      finalIframeUrl (pageState (pageSession cfg pageOrigin query h1 events1)) = Some src /\
      securityError (pageState (pageSession cfg pageOrigin query h1 events1)) = None /\
      (src <> "" ->
       stripLoading (pageView cfg (mkLocation pageOrigin query (finalHash h1 events1))
                              (pageSession cfg pageOrigin query h1 events1))
       = Frame src (frameTitle (activeItem cfg (mkLocation pageOrigin query
                                                  (finalHash h1 events1)))) false))
   \/ (exists msg,
      finalIframeUrl (pageState (pageSession cfg pageOrigin query h1 events1)) = None /\
      securityError (pageState (pageSession cfg pageOrigin query h1 events1)) = Some msg /\
      pageView cfg (mkLocation pageOrigin query (finalHash h1 events1))
               (pageSession cfg pageOrigin query h1 events1) = ContentBlocked msg)
   \/ (finalIframeUrl (pageState (pageSession cfg pageOrigin query h1 events1)) = None /\
       securityError (pageState (pageSession cfg pageOrigin query h1 events1)) = None /\
       pageView cfg (mkLocation pageOrigin query (finalHash h1 events1))
                (pageSession cfg pageOrigin query h1 events1)
         = Welcome (finalHash h1 events1))).
Proof.
  intros Hh.
  destruct (pageSession_settled cfg pageOrigin query h1 events1) as [Hu1 He1].
  destruct (pageSession_settled cfg pageOrigin query h2 events2) as [Hu2 He2].
  rewrite <- Hh in Hu2, He2 |- *.
  split; [congruence|]. split; [congruence|]. split.
  { unfold pageView. apply stripLoading_render; congruence. }
  split.
  { intros st. rewrite settled_any. done. }
  unfold pageView, render. rewrite Hu1, He1.
  destruct (settled_outcomes cfg pageOrigin query (finalHash h1 events1))
    as [[src Hs] | [(msg & Hs & Hmsg) | Hs]].
  - left. exists src. rewrite Hs. simpl. split; [done|]. split; [done|].
    intros Hsrc. by apply truthy_true in Hsrc as ->.
  - right. left. exists msg. rewrite Hs. simpl.
    by apply truthy_true in Hmsg as ->.
  - right. right. by rewrite Hs.
Qed.

Lemma pageSession_deterministic_witness :
  finalHash "#/services" [] = finalHash "#/home" [frameLoaded; hashChanged "#/services"] /\
  finalIframeUrl
    (pageState (pageSession (H := Sample.browser) Sample.settings Sample.pageOrigin
                  "?lang=en" "#/services" []))
  = finalIframeUrl
      (pageState (pageSession (H := Sample.browser) Sample.settings Sample.pageOrigin
                    "?lang=en" "#/home" [frameLoaded; hashChanged "#/services"])).
Proof.
  split; [reflexivity|].
  destruct (pageSession_deterministic (H := Sample.browser) Sample.settings
              Sample.pageOrigin "?lang=en" "#/services" "#/home"
              [] [frameLoaded; hashChanged "#/services"] eq_refl) as [Hurl _].
  exact Hurl.
Defined.

(** Two routes with the same [iframeUrl]: arriving at the second from the
    first, once the frame has loaded, does not run the effect again, and
    the loading indicator stays off; mounting at the second directly turns
    it on.  The URL is the same either way. *)
Example loading_indicator_depends_on_history :
  pageState (pageSession (H := Sample.browser) SampleTwins.settings
               Sample.pageOrigin "" "#/a" [frameLoaded; hashChanged "#/b"])
  = mkPageState (Some "https://dash.example.com/local/page.html") None false /\
  pageState (pageSession (H := Sample.browser) SampleTwins.settings
               Sample.pageOrigin "" "#/b" [])
  = mkPageState (Some "https://dash.example.com/local/page.html") None true.
Proof. split; reflexivity. Qed.

(* ================================================================== *)
(** * What reaches [localStorage] *)
(* ================================================================== *)

Section Persistence.

Context `{Browser}.

(** The storage after one operation: two effects write, each its own
    key; everything else leaves the storage as it is. *)
Lemma exec_localStorage (o : Op) (s : AppState) :
  localStorage (exec o s) =
    match o with
    | opPersistSidebarState =>
        if isMobile s then localStorage s
        else <["sidebarState" := if isExpanded s then "expanded" else "collapsed"]>
               (localStorage s)
    | opPersistOpenSubmenus =>
        <["openSubmenus" := JSON_stringify (JsSet.toArray (openSubmenus s))]>
          (localStorage s)
    | _ => localStorage s
    end.
Proof.
  destruct o; simpl; try done.
  - unfold initSidebarState. destruct (settings (ctx s)); [|done].
    destruct (loading (ctx s)); [done|]. by destruct (isMobile s).
  - unfold persistSidebarState. by destruct (isMobile s).
  - unfold applyTheme. destruct (settings (ctx s)) as [cfg|]; [|done].
    by destruct (theme cfg).
  - unfold closeMenuOnNavigation. by destruct (isMobile s).
  - unfold profileClick. destruct (settings (ctx s)); [|done].
    simpl. by destruct (isMobile s).
  - unfold mouseEnter. by destruct (isExpanded s).
  - unfold mouseLeave. by destruct (isExpanded s).
  - unfold runPageEffect. by destruct (settings (ctx s)).
Qed.

Lemma exec_other_keys (o : Op) (s : AppState) (k : string) :
  k ∉ persistedKeys -> localStorage (exec o s) !! k = localStorage s !! k.
Proof.
  intros Hk. rewrite exec_localStorage.
  assert (k <> "sidebarState" /\ k <> "openSubmenus") as [H1 H2].
  { unfold persistedKeys in Hk. rewrite !not_elem_of_cons in Hk. tauto. }
  destruct o; try done.
  - destruct (isMobile s); [done|]. by rewrite lookup_insert_ne.
  - by rewrite lookup_insert_ne.
Qed.

Lemma exec_sidebarState (o : Op) (s : AppState) :
  localStorage (exec o s) !! "sidebarState" = localStorage s !! "sidebarState" \/
  (o = opPersistSidebarState /\ isMobile s = false /\
   localStorage (exec o s) !! "sidebarState"
     = Some (if isExpanded s then "expanded" else "collapsed")).
Proof.
  rewrite exec_localStorage. destruct o; auto.
  - destruct (isMobile s); [auto|]. right. by rewrite lookup_insert_eq.
  - left. by rewrite lookup_insert_ne.
Qed.

Lemma exec_openSubmenus (o : Op) (s : AppState) :
  localStorage (exec o s) !! "openSubmenus" = localStorage s !! "openSubmenus" \/
  (o = opPersistOpenSubmenus /\ openSubmenus (exec o s) = openSubmenus s /\
   localStorage (exec o s) !! "openSubmenus"
     = Some (JSON_stringify (JsSet.toArray (openSubmenus s)))).
Proof.
  rewrite exec_localStorage. destruct o; auto.
  - left. destruct (isMobile s); [done|]. by rewrite lookup_insert_ne.
  - right. by rewrite lookup_insert_eq.
Qed.

Lemma run_cons (o : Op) (ops : list Op) (s : AppState) :
  run (o :: ops) s = run ops (exec o s).
Proof. reflexivity. Qed.

End Persistence.

(** C7. Over any sequence of handlers and effects, [localStorage] changes
    at two keys only.  ['sidebarState'] is written by one effect, only when
    not on mobile, with ['expanded'] or ['collapsed'] according to
    [isExpanded]; ['openSubmenus'] is written by one effect, with the JSON
    serialisation of the array of the paths open at that moment.  Every
    other key keeps the value it had. *)
Theorem only_two_flags_persisted `{Browser} (ops : list Op) (s : AppState) :
  (forall k, k ∉ persistedKeys ->
     localStorage (run ops s) !! k = localStorage s !! k) /\
  (localStorage (run ops s) !! "sidebarState" = localStorage s !! "sidebarState" \/
   localStorage (run ops s) !! "sidebarState" = Some "expanded" \/
   localStorage (run ops s) !! "sidebarState" = Some "collapsed") /\
  (localStorage (run ops s) !! "openSubmenus" = localStorage s !! "openSubmenus" \/
   exists opened,
     localStorage (run ops s) !! "openSubmenus" = Some (JSON_stringify opened)) /\
  (forall o,
     localStorage (exec o s) = localStorage s \/
     (o = opPersistSidebarState /\ isMobile s = false /\
      localStorage (exec o s)
        = <["sidebarState" := if isExpanded s then "expanded" else "collapsed"]>
            (localStorage s)) \/
     (o = opPersistOpenSubmenus /\ openSubmenus (exec o s) = openSubmenus s /\
      localStorage (exec o s)
        = <["openSubmenus" := JSON_stringify (JsSet.toArray (openSubmenus s))]>
            (localStorage s))).
Proof.
  split; [|split; [|split]].
  - revert s. induction ops as [|o ops IH]; intros s k Hk; [done|].
    by rewrite run_cons, IH, exec_other_keys.
  - revert s. induction ops as [|o ops IH]; intros s; [by left|].
    rewrite run_cons. destruct (IH (exec o s)) as [Heq|Hw]; [|by right].
    rewrite Heq. destruct (exec_sidebarState o s) as [?|(_ & _ & Hv)]; [by left|].
    right. rewrite Hv. destruct (isExpanded s); auto.
  - revert s. induction ops as [|o ops IH]; intros s; [by left|].
    rewrite run_cons. destruct (IH (exec o s)) as [Heq|Hw]; [|by right].
    rewrite Heq. destruct (exec_openSubmenus o s) as [?|(_ & _ & Hv)]; [by left|].
    right. eauto.
  - intros o. rewrite exec_localStorage.
    destruct o; auto.
    destruct (isMobile s); auto.
Qed.

(* ================================================================== *)
(** * Loading the settings *)
(* ================================================================== *)

(** C2 (the code at the failing input). [fetchSettings] stores the document
    as fetched: with [?primary=red] in the address bar the stored theme
    still has the file's [primary], where the README's override would have
    put [red]; the page's location has no influence on what is stored. *)
Theorem fetchSettings_ignores_query :
  let loc := Sample.at_ "#/" "?primary=red&lang=en" in
  let stored :=
    settings (fetchSettings loc (fetchResponse true 200 (Some Sample.settings))
                            (mkSettingsContext None true)) in
  let params := URLSearchParams_parse (Browser := Sample.browser) (search loc) in
  objectGet params "primary" = Some "red" /\
  stored = Some Sample.settings /\
  (stored ≫= theme) ≫= (fun t => objectGet t "primary") = Some "hsl(220, 13%, 61%)" /\
  (theme (settingsWithOverrides params Sample.settings))
    ≫= (fun t => objectGet t "primary") = Some "red" /\
  stored <> Some (settingsWithOverrides params Sample.settings) /\
  (forall l1 l2 r c, fetchSettings l1 r c = fetchSettings l2 r c).
Proof.
  repeat split; try reflexivity. discriminate.
Qed.

(* ================================================================== *)
(** * More on route resolution *)
(* ================================================================== *)

Lemma string_app_same_length (p1 p2 r1 r2 : string) :
  p1 +:+ r1 = p2 +:+ r2 -> String.length p1 = String.length p2 -> p1 = p2.
Proof.
  revert p2. induction p1 as [|c p1 IH]; intros [|d p2] Heq Hlen;
    try done; simpl in Hlen; try lia.
  rewrite !string_app_cons in Heq. injection Heq as -> Heq.
  f_equal. apply IH; [done | lia].
Qed.

Lemma string_app_empty_r (p r : string) : p = p +:+ r -> r = "".
Proof.
  intros Heq. rewrite <- (string_app_nil_r p) in Heq at 1.
  by apply (inj (String.append _)) in Heq.
Qed.

(** What the loop leaves when it starts without a best match. *)
Lemma fold_checkItem_best (cur : string) (ls : list NavLink) :
  match fold_left (checkItem cur) ls None with
  | Some m =>
      navLink m ∈ ls /\ hrefAccepts cur (navLink m) = true /\
      iframeHash m = substringFrom cur (hrefLen (navLink m)) /\
      (forall l, l ∈ ls -> hrefAccepts cur l = true ->
                 hrefLen l <= hrefLen (navLink m))
  | None => forall l, l ∈ ls -> hrefAccepts cur l = false
  end.
Proof.
  pose proof (fold_checkItem_spec cur ls None) as Hs.
  destruct (fold_left (checkItem cur) ls None) as [m|]; [|by destruct Hs].
  destruct Hs as [[? _] | (pre & post & -> & Hacc & Hh & Hpre & Hpost & _)]; [done|].
  split; [apply elem_of_app; right; by left|].
  split; [done|]. split; [done|].
  intros l [Hl|[->|Hl]%elem_of_cons]%elem_of_app Ha.
  - specialize (Hpre l Hl Ha). lia.
  - done.
  - by apply Hpost.
Qed.

Lemma hrefAccepts_length (cur : string) (l : NavLink) :
  hrefAccepts cur l = true -> hrefLen l <= String.length cur.
Proof.
  intros (rest & -> & _)%hrefAccepts_matches.
  rewrite string_length_app. unfold hrefLen. lia.
Qed.

Lemma hrefAccepts_same_length (cur : string) (l1 l2 : NavLink) :
  hrefAccepts cur l1 = true -> hrefAccepts cur l2 = true ->
  hrefLen l1 = hrefLen l2 -> href l1 = href l2.
Proof.
  intros (r1 & H1 & _)%hrefAccepts_matches (r2 & H2 & _)%hrefAccepts_matches Hlen.
  rewrite H1 in H2. by apply (string_app_same_length _ _ _ _ H2).
Qed.

Lemma hrefAccepts_exact (l : NavLink) : hrefAccepts (href l) l = true.
Proof.
  apply hrefAccepts_matches. exists "". split; [|by left].
  by rewrite string_app_nil_r.
Qed.

(** A link whose href is the whole hash makes the loop end on that href. *)
Lemma fold_checkItem_exact (ls : list NavLink) (l : NavLink) :
  l ∈ ls ->
  exists m, fold_left (checkItem (href l)) ls None = Some m /\
            navLink m ∈ ls /\
            href (navLink m) = href l /\ iframeHash m = "".
Proof.
  intros Hl. pose proof (fold_checkItem_best (href l) ls) as Hs.
  destruct (fold_left (checkItem (href l)) ls None) as [m|].
  - destruct Hs as (Hin & Hacc & Hh & Hmax).
    exists m. split; [done|]. split; [done|].
    assert (href (navLink m) = href l) as Heq.
    { apply (hrefAccepts_same_length (href l)); [done | apply hrefAccepts_exact |].
      pose proof (Hmax l Hl (hrefAccepts_exact l)).
      pose proof (hrefAccepts_length _ _ Hacc). unfold hrefLen in *. lia. }
    split; [done|].
    pose proof (hrefAccepts_suffix _ _ Hacc) as Hcur. rewrite <- Hh in Hcur.
    rewrite Heq in Hcur. by apply string_app_empty_r in Hcur.
  - pose proof (hrefAccepts_exact l) as He. rewrite (Hs l Hl) in He. done.
Qed.

(** X1. An exact match always wins: when the hash is the href of some link
    of the menu (a top-level link or a child of a submenu),
    [findNavItemByHref] returns a link of the menu with exactly that href
    and an empty residual hash, whatever longer or shorter hrefs the menu
    also holds. *)
Theorem findNavItemByHref_exact_match (items : list NavItem) (cur : string)
    (l : NavLink) :
  (link l ∈ items \/ exists s, submenu s ∈ items /\ l ∈ children s) ->
  href l = cur ->
  exists m, findNavItemByHref items cur = Some m /\
            (link (navLink m) ∈ items \/
             exists s, submenu s ∈ items /\ navLink m ∈ children s) /\
            href (navLink m) = cur /\ iframeHash m = "".
Proof.
  intros Hl%elem_of_navLinks <-.
  destruct (fold_checkItem_exact _ _ Hl) as (m & Hm & Hin & Hh & Hr).
  exists m. unfold findNavItemByHref. rewrite fold_visitItem_flat.
  split; [done|]. split; [by apply elem_of_navLinks | done].
Qed.

Lemma findNavItemByHref_exact_match_witness :
  (link Sample.services ∈ Sample.items \/
   exists s, submenu s ∈ Sample.items /\ Sample.services ∈ children s) /\
  href Sample.services = "#/services" /\
  exists m, findNavItemByHref Sample.items "#/services" = Some m /\
            href (navLink m) = "#/services" /\ iframeHash m = "".
Proof.
  assert (link Sample.services ∈ Sample.items \/
          exists s, submenu s ∈ Sample.items /\ Sample.services ∈ children s) as Hin.
  { right. exists Sample.account. split.
    - unfold Sample.items. rewrite !elem_of_cons. auto.
    - unfold Sample.account. simpl. by left. }
  split; [exact Hin|]. split; [reflexivity|].
  destruct (findNavItemByHref_exact_match Sample.items "#/services"
              Sample.services Hin eq_refl) as (m & Hm & _ & Hh & Hr).
  exists m. split; [exact Hm|]. split; [exact Hh | exact Hr].
Defined.

(** X2. The matched href and the residual hash depend only on which links
    the menu holds, not on their order or grouping: two menus with the same
    links (as top-level entries or inside submenus) either both find no
    match, or find matches with the same href and the same residual. *)
Theorem findNavItemByHref_order_independent (items1 items2 : list NavItem)
    (cur : string) :
  (forall l, l ∈ navLinks items1 <-> l ∈ navLinks items2) ->
  match findNavItemByHref items1 cur, findNavItemByHref items2 cur with
  | Some m1, Some m2 =>
      href (navLink m1) = href (navLink m2) /\ iframeHash m1 = iframeHash m2
  | None, None => True
  | _, _ => False
  end.
Proof.
  intros Hsame. unfold findNavItemByHref. rewrite !fold_visitItem_flat.
  pose proof (fold_checkItem_best cur (navLinks items1)) as H1.
  pose proof (fold_checkItem_best cur (navLinks items2)) as H2.
  destruct (fold_left (checkItem cur) (navLinks items1) None) as [m1|],
           (fold_left (checkItem cur) (navLinks items2) None) as [m2|].
  - destruct H1 as (Hin1 & Ha1 & Hh1 & Hmax1), H2 as (Hin2 & Ha2 & Hh2 & Hmax2).
    assert (hrefLen (navLink m1) = hrefLen (navLink m2)) as Hlen.
    { apply Nat.le_antisymm.
      - apply Hmax2; [by apply Hsame | done].
      - apply Hmax1; [by apply Hsame | done]. }
    split; [by apply (hrefAccepts_same_length cur)|].
    by rewrite Hh1, Hh2, Hlen.
  - destruct H1 as (Hin1 & Ha1 & _). apply Hsame in Hin1.
    rewrite (H2 _ Hin1) in Ha1. done.
  - destruct H2 as (Hin2 & Ha2 & _). apply Hsame in Hin2.
    rewrite (H1 _ Hin2) in Ha2. done.
  - done.
Qed.

Lemma findNavItemByHref_order_independent_witness :
  (forall l, l ∈ navLinks Sample.items <-> l ∈ navLinks (reverse Sample.items)) /\
  match findNavItemByHref Sample.items "#/services/billing#pay",
        findNavItemByHref (reverse Sample.items) "#/services/billing#pay" with
  | Some m1, Some m2 =>
      href (navLink m1) = href (navLink m2) /\ iframeHash m1 = iframeHash m2
  | None, None => True
  | _, _ => False
  end.
Proof.
  assert (forall l, l ∈ navLinks Sample.items <-> l ∈ navLinks (reverse Sample.items))
    as Hsame.
  { intros l. vm_compute navLinks. rewrite !elem_of_cons, !elem_of_nil. tauto. }
  split; [exact Hsame|].
  exact (findNavItemByHref_order_independent Sample.items (reverse Sample.items)
           "#/services/billing#pay" Hsame).
Defined.

Lemma findDefaultHref_in_navLinks (items : list NavItem) :
  navLinks items <> [] ->
  exists l, l ∈ navLinks items /\ href l = findDefaultHref items.
Proof.
  induction items as [|it items IH]; [done|].
  rewrite navLinks_cons. destruct it as [l|h|s]; simpl.
  - intros _. exists l. split; [by left | done].
  - intros Hne. destruct (IH Hne) as (l & Hl & Hh). eauto.
  - destruct (children s) as [|c cs] eqn:Hc; simpl.
    + intros Hne. destruct (IH Hne) as (l & Hl & Hh). eauto.
    + intros _. exists c. split; [by left | done].
Qed.

(** X3. The landing route ['#/'] resolves whenever the menu has a link: the
    match has the default href of [findDefaultHref] and an empty residual
    hash.  Only a menu without any link (headers and empty submenus) leaves
    ['#/'] unresolved. *)
Theorem landing_route_resolves (items : list NavItem) :
  (navLinks items = [] -> resolveRoute items "#/" = None) /\
  (navLinks items <> [] ->
     exists m, resolveRoute items "#/" = Some m /\
               navLink m ∈ navLinks items /\
               href (navLink m) = findDefaultHref items /\
               iframeHash m = "").
Proof.
  unfold resolveRoute, routeHref, findNavItemByHref. simpl.
  rewrite fold_visitItem_flat. split.
  - intros ->. done.
  - intros Hne. destruct (findDefaultHref_in_navLinks _ Hne) as (l & Hl & <-).
    destruct (fold_checkItem_exact _ _ Hl) as (m & Hm & Hin & Hh & Hr).
    exists m. done.
Qed.

(* ================================================================== *)
(** * More on the allow-list *)
(* ================================================================== *)

Lemma string_app_inj_r (p1 p2 d : string) : p1 +:+ d = p2 +:+ d -> p1 = p2.
Proof.
  intros Heq. apply (string_app_same_length _ _ _ _ Heq).
  apply (f_equal String.length) in Heq. rewrite !string_length_app in Heq. lia.
Qed.

(** X4. The allow-list matches whole labels: a host that ends with the text
    of an allowed domain is accepted only if it is that domain or if the
    text before the domain ends with a dot.  A look-alike host such as
    'evilmypancho.com' is not covered by 'mypancho.com'. *)
Theorem isAllowed_dot_boundary (domain before : string) :
  isAllowed [domain] (before +:+ domain) = true <->
  before = "" \/ exists sub, before = sub +:+ ".".
Proof.
  rewrite isAllowed_spec. split.
  - intros (d & ->%list_elem_of_singleton & [Heq|[q Hq]]).
    + left. apply (string_app_inj_r _ "" domain). by rewrite string_app_nil_l.
    + right. exists q. apply (string_app_inj_r _ _ domain).
      by rewrite string_app_assoc.
  - intros Hb. exists domain. split; [by left|].
    destruct Hb as [->|[q ->]].
    + left. by rewrite string_app_nil_l.
    + right. exists q. by rewrite string_app_assoc.
Qed.

Example lookalike_host_blocked :
  isAllowed ["mypancho.com"] "evilmypancho.com" = false /\
  isAllowed ["mypancho.com"] "a.b.mypancho.com" = true.
Proof. split; reflexivity. Qed.

(** X5. The allow-list fails closed: when the settings have no [security]
    section, no [allowedIframeDomains], or an empty list, no configured URL
    that begins with neither ['/'] nor ['./'] is ever embedded; it ends in
    the allow-list error, or in the invalid-URL error when it does not
    parse. *)
Theorem missing_allowlist_blocks_absolute_urls `{Browser}
    (cfg : AppSettings) (loc : Location) (url iframeHash : string) (st : PageState) :
  (security cfg = None \/
   exists sec, security cfg = Some sec /\
               (allowedIframeDomains sec = None \/ allowedIframeDomains sec = Some [])) ->
  url <> "" -> ~ beginsRelative url ->
  pageEffect cfg loc (Some url) iframeHash st
    = match URL_parse url (origin loc) with
      | Some _ => failed msgDomainBlocked
      | None => failed msgInvalidUrl
      end.
Proof.
  intros Hsec Hurl Hrel.
  assert (allowedDomains cfg = []) as Hnone.
  { unfold allowedDomains. destruct Hsec as [->|(sec & -> & [->| ->])]; done. }
  assert (isRelative url = false) as Hr.
  { apply not_true_iff_false. by rewrite isRelative_spec. }
  rewrite pageEffect_cases, (string_eqb_nonempty _ Hurl), Hr, Hnone.
  by destruct (URL_parse url (origin loc)).
Qed.

Lemma missing_allowlist_witness :
  security (mkAppSettings None None (sidebar Sample.settings)) = None /\
  "https://mypancho.com/billing" <> "" /\
  ~ beginsRelative "https://mypancho.com/billing" /\
  pageEffect (H := Sample.browser)
             (mkAppSettings None None (sidebar Sample.settings))
             (Sample.at_ "#/services/billing" "")
             (Some "https://mypancho.com/billing") "" Sample.blank
    = failed msgDomainBlocked.
Proof.
  assert (~ beginsRelative "https://mypancho.com/billing") as Hrel.
  { intros Hb. apply isRelative_spec in Hb. discriminate. }
  split; [reflexivity|]. split; [discriminate|]. split; [exact Hrel|].
  apply (missing_allowlist_blocks_absolute_urls (H := Sample.browser)
           (mkAppSettings None None (sidebar Sample.settings))
           (Sample.at_ "#/services/billing" "")
           "https://mypancho.com/billing" "" Sample.blank);
    [by left | discriminate | exact Hrel].
Defined.

(** X6. Widening the allow-list never takes content away: if a URL is
    embedded under one configuration, it is embedded, as the same final URL,
    under any configuration whose allow-list holds at least the same
    domains. *)
Theorem wider_allowlist_keeps_embedding `{Browser}
    (cfg cfg' : AppSettings) (loc : Location) (iframeUrl : option string)
    (iframeHash src : string) (st st' : PageState) :
  (forall d, d ∈ allowedDomains cfg -> d ∈ allowedDomains cfg') ->
  pageEffect cfg loc iframeUrl iframeHash st = embedded src ->
  pageEffect cfg' loc iframeUrl iframeHash st' = embedded src.
Proof.
  intros Hsub. rewrite !pageEffect_cases.
  destruct iframeUrl as [url|]; [|done].
  destruct (String.eqb url ""); [done|].
  destruct (URL_parse url (origin loc)) as [u|]; [|done].
  destruct (isRelative url); [done|]. simpl.
  destruct (isAllowed (allowedDomains cfg) (hostname u)) eqn:Ha; [|done].
  apply isAllowed_spec in Ha as (d & Hd & Hc).
  assert (isAllowed (allowedDomains cfg') (hostname u) = true) as ->; [|done].
  apply isAllowed_spec. eauto.
Qed.

Lemma wider_allowlist_witness :
  (forall d, d ∈ allowedDomains Sample.settings ->
             d ∈ allowedDomains
                   (mkAppSettings None
                      (Some (mkSecuritySettings (Some ["example.org"; "mypancho.com"])))
                      (sidebar Sample.settings))) /\
  pageEffect (H := Sample.browser)
             (mkAppSettings None
                (Some (mkSecuritySettings (Some ["example.org"; "mypancho.com"])))
                (sidebar Sample.settings))
             (Sample.at_ "#/services/billing" "")
             (Some "https://mypancho.com/billing") "" (failed msgInvalidUrl)
    = embedded "https://mypancho.com/billing".
Proof.
  assert (forall d, d ∈ allowedDomains Sample.settings ->
             d ∈ allowedDomains
                   (mkAppSettings None
                      (Some (mkSecuritySettings (Some ["example.org"; "mypancho.com"])))
                      (sidebar Sample.settings))) as Hsub.
  { intros d Hd. simpl in *. apply list_elem_of_singleton in Hd as ->.
    right. by left. }
  split; [exact Hsub|].
  apply (wider_allowlist_keeps_embedding (H := Sample.browser)
           Sample.settings _ (Sample.at_ "#/services/billing" "")
           (Some "https://mypancho.com/billing") ""
           "https://mypancho.com/billing" Sample.blank (failed msgInvalidUrl) Hsub).
  reflexivity.
Defined.

(* ================================================================== *)
(** * Loading, theming and the persisted sidebar state *)
(* ================================================================== *)

(** X7. [fetchSettings] never leaves the application on the loading
    notice.  Only a response that is ok and whose body parses replaces the
    settings; a rejected fetch, a response that is not ok (even with a
    well-formed body) and a malformed body all leave the settings as they
    were, so that a first load that fails ends on the error notice. *)
Theorem fetchSettings_outcome (win : Location) (r : FetchResult)
    (c : SettingsContextType) :
  loading (fetchSettings win r c) = false /\
  layoutView (fetchSettings win r c) <> LoadingSettings /\
  match r with
  | fetchResponse true _ (Some data) =>
      layoutView (fetchSettings win r c) = Dashboard data
  | _ =>
      settings (fetchSettings win r c) = settings c /\
      (settings c = None -> layoutView (fetchSettings win r c) = SettingsError)
  end.
Proof.
  split; [done|]. split.
  - unfold layoutView. simpl. by destruct (settings _).
  - unfold layoutView.
    destruct r as [|[] status [data|]]; simpl; try done;
      (split; [done | by intros ->]).
Qed.

Section RootStyle.

Context `{Browser}.

Lemma setProperty_lookup_eq (name value : string) (style : gmap string string) :
  setProperty name value style !! name = propertyAfter name value (style !! name).
Proof.
  unfold setProperty, propertyAfter. destruct (String.eqb value "").
  - apply lookup_delete_eq.
  - destruct (CSS_parseValue name value); [apply lookup_insert_eq | done].
Qed.

Lemma setProperty_lookup_ne (name other value : string)
    (style : gmap string string) :
  other <> name -> setProperty name value style !! other = style !! other.
Proof.
  intros Hne. unfold setProperty. destruct (String.eqb value "").
  - by apply lookup_delete_ne.
  - destruct (CSS_parseValue name value); [by apply lookup_insert_ne | done].
Qed.

Lemma fold_setProperty_lookup (f : string -> string)
    (entries : list (string * string)) :
  (forall a b, f a = f b -> a = b) ->
  NoDup (map fst entries) ->
  forall m : gmap string string,
    (forall k v, (k, v) ∈ entries ->
       fold_left (fun st kv => setProperty (f kv.1) kv.2 st) entries m !! f k
       = propertyAfter (f k) v (m !! f k)) /\
    (forall name, (forall k, k ∈ map fst entries -> name <> f k) ->
       fold_left (fun st kv => setProperty (f kv.1) kv.2 st) entries m !! name
       = m !! name).
Proof.
  intros Hinj. induction entries as [|[k0 v0] entries IH]; intros Hnd m.
  - split; [intros k v Hin; by apply elem_of_nil in Hin | done].
  - simpl in Hnd. apply NoDup_cons in Hnd as [Hk0 Hnd].
    destruct (IH Hnd (setProperty (f k0) v0 m)) as [IHin IHout]. simpl. split.
    + intros k v [[= -> ->]|Hin]%elem_of_cons.
      * rewrite IHout; [apply setProperty_lookup_eq|].
        intros k Hk Heq. apply Hinj in Heq as ->. done.
      * rewrite (IHin k v Hin). rewrite setProperty_lookup_ne; [done|].
        intros Heq. apply Hinj in Heq as ->. apply Hk0.
        apply list_elem_of_fmap. by exists (k0, v).
    + intros name Hname. rewrite IHout.
      * rewrite setProperty_lookup_ne; [done|]. apply Hname. by left.
      * intros k Hk. apply Hname. by right.
Qed.

End RootStyle.

(** X8. [applyTheme] calls [setProperty] on the document root for every
    entry of the theme, under the name ['--color-' + key]: an entry with the
    empty string as value removes that property, an entry whose value does
    not parse leaves the property as it was, and any other entry sets it to
    the parsed value.  Every other property of the root's style stays as it
    was, and [localStorage] is not touched (the keys of the theme object
    being distinct, as those of a parsed JSON object are). *)
Theorem applyTheme_sets_color_variables `{Browser} (s : AppState)
    (cfg : AppSettings) (entries : list (string * string)) :
  settings (ctx s) = Some cfg ->
  theme cfg = Some entries ->
  NoDup (map fst entries) ->
  (forall k v, (k, v) ∈ entries ->
     rootStyle (applyTheme s) !! ("--color-" +:+ k)
     = if String.eqb v "" then None
       else match CSS_parseValue ("--color-" +:+ k) v with
            | Some stored => Some stored
            | None => rootStyle s !! ("--color-" +:+ k)
            end) /\
  (forall name, (forall k, k ∈ map fst entries -> name <> "--color-" +:+ k) ->
     rootStyle (applyTheme s) !! name = rootStyle s !! name) /\
  localStorage (applyTheme s) = localStorage s.
Proof.
  intros Hcfg Hth Hnd. unfold applyTheme. rewrite Hcfg, Hth. simpl.
  destruct (fold_setProperty_lookup (String.append "--color-") entries) with
    (m := rootStyle s) as [Hin Hout]; [|done|].
  - intros a b Heq. by apply (inj (String.append _)) in Heq.
  - split; [exact Hin|]. split; [exact Hout | done].
Qed.

Lemma applyTheme_witness :
  settings (ctx SampleStore.themed) = Some SampleStore.themedSettings /\
  NoDup (map fst SampleStore.themeEntries) /\
  rootStyle (applyTheme (H := Sample.browser) SampleStore.themed) !! "--color-border"
    = Some "hsl(0, 0%, 90%)" /\
  rootStyle (applyTheme (H := Sample.browser) SampleStore.themed) !! "--color-muted"
    = None /\
  rootStyle (applyTheme (H := Sample.browser) SampleStore.themed) !! "--color-accent"
    = Some "teal" /\
  rootStyle (applyTheme (H := Sample.browser) SampleStore.themed) !! "font-size"
    = Some "14px".
Proof.
  assert (NoDup (map fst SampleStore.themeEntries)) as Hnd.
  { apply (bool_decide_unpack _). vm_compute. exact I. }
  destruct (applyTheme_sets_color_variables (H := Sample.browser)
              SampleStore.themed SampleStore.themedSettings
              SampleStore.themeEntries eq_refl eq_refl Hnd) as (Hin & Hout & _).
  split; [reflexivity|]. split; [exact Hnd|].
  split; [|split; [|split]].
  - apply (Hin "border" "hsl(0, 0%, 90%)"). unfold SampleStore.themeEntries.
    rewrite !elem_of_cons. auto.
  - apply (Hin "muted" ""). unfold SampleStore.themeEntries.
    rewrite !elem_of_cons. auto.
  - apply (Hin "accent" "red)"). unfold SampleStore.themeEntries.
    rewrite !elem_of_cons. auto.
  - rewrite Hout; [reflexivity|].
    intros k Hk. unfold SampleStore.themeEntries in Hk. simpl in Hk.
    rewrite !elem_of_cons, elem_of_nil in Hk.
    destruct Hk as [->|[->|[->|[->|[]]]]]; discriminate.
Defined.

(** The initial-state effect finds the flag that matches the state. *)
Lemma initSidebarState_reads_back (t : AppState) :
  isMobile t = false ->
  localStorage t !! "sidebarState"
    = Some (if isExpanded t then "expanded" else "collapsed") ->
  initSidebarState t = t.
Proof.
  intros Hm Hst. unfold initSidebarState.
  destruct (settings (ctx t)); [|done].
  destruct (loading (ctx t)); [done|].
  rewrite Hst, Hm. simpl.
  destruct t as [c mob menu ex hov opened pg loc sty store]. simpl in *.
  by destruct ex.
Qed.

(** X9. On desktop, the initial-state effect run after the persist effect
    reads back what was just written: it leaves the whole state as it is,
    and [isExpanded] is also kept when the settings arrive in between.
    Since the persist effect does not wait for the settings, the value an
    earlier session saved under ['sidebarState'] and the settings'
    [defaultState] then have no influence on [isExpanded]. *)
Theorem sidebarState_read_back `{Browser} (s : AppState) (r : FetchResult) :
  isMobile s = false ->
  initSidebarState (persistSidebarState s) = persistSidebarState s /\
  isExpanded (run [opPersistSidebarState; opFetchSettings r; opInitSidebarState] s)
    = isExpanded s.
Proof.
  intros Hm. split.
  - apply initSidebarState_reads_back.
    + unfold persistSidebarState. by rewrite Hm.
    + unfold persistSidebarState. rewrite Hm. simpl. apply lookup_insert_eq.
  - unfold run. simpl. rewrite initSidebarState_reads_back.
    + unfold persistSidebarState. by rewrite Hm.
    + unfold persistSidebarState. by rewrite Hm.
    + unfold persistSidebarState. rewrite Hm. simpl. apply lookup_insert_eq.
Qed.

Lemma sidebarState_read_back_witness :
  isMobile SampleStore.desktop = false /\
  localStorage SampleStore.desktop !! "sidebarState" = Some "expanded" /\
  defaultState (sidebar Sample.settings) = "expanded" /\
  isExpanded (run (H := Sample.browser)
                  [opPersistSidebarState;
                   opFetchSettings (fetchResponse true 200 (Some Sample.settings));
                   opInitSidebarState] SampleStore.desktop) = false.
Proof.
  split; [reflexivity|]. split; [reflexivity|]. split; [reflexivity|].
  destruct (sidebarState_read_back (H := Sample.browser) SampleStore.desktop
              (fetchResponse true 200 (Some Sample.settings)) eq_refl) as [_ Hrun].
  exact Hrun.
Defined.

(* ================================================================== *)
(** * More on the open submenus *)
(* ================================================================== *)

(** X10. What the persist effect of [Sidebar] writes is what the
    initialiser of [openSubmenus] reads back: provided [JSON.parse] returns
    the array [JSON.stringify] was given and the text written is not empty,
    a reload starts with the same open submenus, in the same order. *)
Theorem openSubmenus_round_trip `{Browser}
    (parse : string -> option (list string)) (s : AppState) :
  NoDup (openSubmenus s) ->
  JSON_stringify (openSubmenus s) <> "" ->
  parse (JSON_stringify (openSubmenus s)) = Some (openSubmenus s) ->
  initialOpenSubmenus parse (localStorage (persistOpenSubmenus s))
    = Some (openSubmenus s).
Proof.
  intros Hnd Hne Hparse. unfold initialOpenSubmenus, persistOpenSubmenus. simpl.
  rewrite lookup_insert_eq. unfold JsSet.toArray.
  apply truthy_true in Hne as ->. rewrite Hparse. simpl.
  by rewrite ofArray_NoDup.
Qed.

Lemma openSubmenus_round_trip_witness :
  NoDup (openSubmenus SampleStore.desktop) /\
  initialOpenSubmenus SampleStore.parseStrings
    (localStorage (persistOpenSubmenus (H := Sample.browser) SampleStore.desktop))
    = Some ["account"; "reports"].
Proof.
  assert (NoDup (openSubmenus SampleStore.desktop)) as Hnd.
  { simpl. apply NoDup_cons. split.
    - intros Hin. apply list_elem_of_singleton in Hin. discriminate.
    - apply NoDup_singleton. }
  split; [exact Hnd|].
  apply (openSubmenus_round_trip (H := Sample.browser) SampleStore.parseStrings
           SampleStore.desktop Hnd); [discriminate | reflexivity].
Defined.

Lemma length_delete_present (s : list string) (p : string) :
  NoDup s -> p ∈ s -> S (length (JsSet.delete s p)) = length s.
Proof.
  unfold JsSet.delete. induction s as [|x s IH]; intros Hnd Hp.
  - by apply elem_of_nil in Hp.
  - apply NoDup_cons in Hnd as [Hx Hnd].
    destruct (decide (x = p)) as [->|Hne].
    + rewrite filter_cons_False by (by intros Hn; apply Hn).
      pose proof (delete_absent s p Hx) as Hd. unfold JsSet.delete in Hd.
      by rewrite Hd.
    + rewrite filter_cons_True by done. simpl. f_equal. apply IH; [done|].
      apply elem_of_cons in Hp as [->|Hp]; done.
Qed.

(** X11. A toggle changes the number of open submenus by exactly one: one
    more when the path was closed, one fewer when it was open. *)
Theorem toggleSubmenu_size (path : string) (s : list string) :
  NoDup s ->
  (JsSet.has s path = true -> S (length (toggleSubmenu path s)) = length s) /\
  (JsSet.has s path = false -> length (toggleSubmenu path s) = S (length s)).
Proof.
  intros Hnd. unfold toggleSubmenu, JsSet.toArray.
  rewrite (ofArray_NoDup s Hnd). split; intros Hp; rewrite Hp.
  - apply length_delete_present; [done | by apply has_true].
  - unfold JsSet.add. rewrite Hp, length_app. simpl. lia.
Qed.

Lemma toggleSubmenu_size_witness :
  NoDup ["account"; "reports"] /\
  S (length (toggleSubmenu "account" ["account"; "reports"])) = 2.
Proof.
  assert (NoDup ["account"; "reports"]) as Hnd.
  { apply NoDup_cons. split.
    - intros Hin. apply list_elem_of_singleton in Hin. discriminate.
    - apply NoDup_singleton. }
  split; [exact Hnd|].
  destruct (toggleSubmenu_size "account" ["account"; "reports"] Hnd) as [Hopen _].
  apply Hopen. reflexivity.
Defined.

(** X12. Toggles of different submenus do not interfere: toggling two paths
    in either order leaves the same submenus open. *)
Theorem toggleSubmenu_commute (p q : string) (s : list string) :
  forall x, JsSet.has (toggleSubmenu p (toggleSubmenu q s)) x
            = JsSet.has (toggleSubmenu q (toggleSubmenu p s)) x.
Proof.
  intros x. apply has_ext. rewrite !elem_of_toggleSubmenu.
  destruct (decide (x = p)) as [Hxp|Hxp]; destruct (decide (x = q)) as [Hxq|Hxq];
    destruct (decide (p = q)) as [Hpq|Hpq];
    destruct (decide (p ∈ s)); destruct (decide (q ∈ s)); subst; tauto.
Qed.

(** X13. Clicking the toggle of a rendered submenu flips, in the next
    rendering, the open state of the entries with that path and of no
    other entry. *)
Theorem sidebarItems_after_toggle (cfg : SidebarSettings) (opened : list string)
    (p : string) (i : nat) (before after : SidebarItemProps) :
  sidebarItems cfg opened !! i = Some before ->
  sidebarItems cfg (toggleSubmenu p opened) !! i = Some after ->
  item after = item before /\
  isOpen after = if bool_decide (onToggle before = Some p)
                 then negb (isOpen before) else isOpen before.
Proof.
  unfold sidebarItems. rewrite !list_lookup_imap.
  destruct (navItems cfg !! i) as [it|]; [|done]. simpl.
  intros [= <-] [= <-]. split; [done|].
  destruct it as [l|h|s]; simpl; [done | done |].
  destruct (decide (path s = p)) as [<-|Hne].
  - rewrite bool_decide_eq_true_2 by done.
    destruct (JsSet.has opened (path s)) eqn:Hp; simpl.
    + apply has_true in Hp. apply bool_decide_eq_false.
      rewrite elem_of_toggleSubmenu. tauto.
    + apply has_true. rewrite elem_of_toggleSubmenu. right. split; [done|].
      intros Hin%has_true. congruence.
  - rewrite bool_decide_eq_false_2 by congruence.
    apply has_ext. rewrite elem_of_toggleSubmenu. tauto.
Qed.

Lemma sidebarItems_after_toggle_witness :
  exists before after,
    sidebarItems (sidebar Sample.settings) ["reports"] !! 2 = Some before /\
    sidebarItems (sidebar Sample.settings) (toggleSubmenu "account" ["reports"]) !! 2
      = Some after /\
    isOpen before = false /\ isOpen after = true.
Proof.
  eexists _, _. split; [reflexivity|]. split; [reflexivity|].
  split; [reflexivity|].
  destruct (sidebarItems_after_toggle (sidebar Sample.settings) ["reports"]
              "account" 2 _ _ eq_refl eq_refl) as [_ Hopen].
  exact Hopen.
Defined.

(* ================================================================== *)
(** * Hovering the collapsed sidebar *)
(* ================================================================== *)

(** X14. The hover handlers do nothing while the sidebar is expanded, so a
    hover that began on the collapsed sidebar survives an expand and
    collapse made before the pointer comes back: after entering, expanding,
    leaving and collapsing, the desktop sidebar is collapsed and still shown
    expanded. *)
Theorem hover_survives_expand_collapse `{Browser} (s : AppState) :
  isMobile s = false -> isExpanded s = false ->
  isExpanded (run [opMouseEnter; opToggleExpanded; opMouseLeave; opToggleExpanded] s)
    = false /\
  isHovering (run [opMouseEnter; opToggleExpanded; opMouseLeave; opToggleExpanded] s)
    = true /\
  isEffectivelyExpanded
    (run [opMouseEnter; opToggleExpanded; opMouseLeave; opToggleExpanded] s) = true.
Proof.
  intros Hm He.
  destruct s as [c mob menu ex hov opened pg loc sty store]. simpl in *. subst.
  repeat split; reflexivity.
Qed.

Lemma hover_survives_witness :
  isMobile SampleStore.desktop = false /\
  isExpanded SampleStore.desktop = false /\
  isEffectivelyExpanded
    (run (H := Sample.browser)
         [opMouseEnter; opToggleExpanded; opMouseLeave; opToggleExpanded]
         SampleStore.desktop) = true.
Proof.
  split; [reflexivity|]. split; [reflexivity|].
  destruct (hover_survives_expand_collapse (H := Sample.browser)
              SampleStore.desktop eq_refl eq_refl) as (_ & _ & Heff).
  exact Heff.
Defined.

(* ================================================================== *)
(** * Routes without content, and the stored open submenus *)
(* ================================================================== *)

(** X15. A route without content clears the frame: when no link matches the
    hash, or the matched link has no [iframeUrl] or an empty one,
    [PageContent] drops whatever URL or error it held and shows the welcome
    text with the current hash. *)
Theorem route_without_content_shows_welcome `{Browser}
    (cfg : AppSettings) (loc : Location) (st : PageState) :
  (resolveRoute (navItems (sidebar cfg)) (hash loc) = None \/
   exists m, resolveRoute (navItems (sidebar cfg)) (hash loc) = Some m /\
             (iframeUrl (navLink m) = None \/ iframeUrl (navLink m) = Some "")) ->
  pageContent cfg loc st = (cleared, Welcome (hash loc)).
Proof.
  intros Hroute. unfold pageContent, routeIframeUrl, routeIframeHash, activeItem.
  rewrite pageEffect_cases.
  destruct Hroute as [-> | (m & -> & [Hu|Hu])]; simpl; [done | |];
    by rewrite Hu.
Qed.

Lemma route_without_content_witness :
  resolveRoute (navItems (sidebar Sample.settings)) "#/nowhere" = None /\
  pageContent (H := Sample.browser) Sample.settings (Sample.at_ "#/nowhere" "")
              (embedded "https://dash.example.com/local/page.html")
    = (cleared, Welcome "#/nowhere").
Proof.
  split; [reflexivity|].
  apply (route_without_content_shows_welcome (H := Sample.browser)
           Sample.settings (Sample.at_ "#/nowhere" "")).
  left. reflexivity.
Defined.

(** X16. The initialiser of [openSubmenus]: with nothing stored under
    ['openSubmenus'], or the empty string, no submenu is open; when the
    stored text does not parse, the initialiser throws; otherwise the open
    submenus are the stored paths, each once, in the order of their first
    occurrence. *)
Theorem initialOpenSubmenus_cases (parse : string -> option (list string))
    (storage : gmap string string) :
  match storage !! "openSubmenus" with
  | None | Some "" => initialOpenSubmenus parse storage = Some []
  | Some saved =>
      match parse saved with
      | None => initialOpenSubmenus parse storage = None
      | Some a =>
          exists opened,
            initialOpenSubmenus parse storage = Some opened /\
            NoDup opened /\
            (forall x, x ∈ opened <-> x ∈ a) /\
            (NoDup a -> opened = a)
      end
  end.
Proof.
  unfold initialOpenSubmenus.
  destruct (storage !! "openSubmenus") as [[|c saved]|]; [done | | done].
  simpl. destruct (parse (String c saved)) as [a|]; [|done]. simpl.
  exists (JsSet.ofArray a). split; [done|]. split.
  - apply NoDup_fold_add, NoDup_nil_2.
  - split; [apply elem_of_ofArray | apply ofArray_NoDup].
Qed.

Example initialOpenSubmenus_dedups :
  initialOpenSubmenus (fun _ => Some ["a"; "b"; "a"]) {["openSubmenus" := "x"]}
  = Some ["a"; "b"].
Proof. reflexivity. Qed.
